(** * HL7 receiving service: framing, bounded store, acknowledgments

    A shallow embedding of [hl7_server.py] (class [HL7Server]) and the
    properties of its frame splitter, message store, acknowledgment
    builders and connection handler.

    Python [str] values are sequences of Unicode code points; they are
    modelled as [list N].  Received data are byte lists.  Exceptions are
    modelled by the sum type [exc], carrying [str(e)]. *)

From Stdlib Require Import List NArith ZArith Arith Lia Bool String Ascii.
From Stdlib Require Import Permutation Sorted DecimalString.
From Stdlib.Strings Require Import Byte.
Import ListNotations.

Set Implicit Arguments.

(* ================================================================== *)
(** ** Python text *)
(* ================================================================== *)

Module Text.

Local Open Scope N_scope.

Definition codepoint := N.
Definition pystr := list codepoint.

(** A source-code string literal (ASCII only in this program). *)
Definition lit (s : string) : pystr :=
  map N_of_ascii (list_ascii_of_string s).

Definition FS : codepoint := 0x1c%N.   (* '\x1c', the hard terminator *)
Definition CR : codepoint := 0x0d%N.   (* '\r',  the soft terminator *)
Definition LF : codepoint := 0x0a%N.   (* '\n' *)

Definition pystr_eq_dec : forall a b : pystr, {a = b} + {a <> b} :=
  list_eq_dec N.eq_dec.

Definition pystr_eqb (a b : pystr) : bool :=
  if pystr_eq_dec a b then true else false.

(** [c in s] for a one-character [c]. *)
Definition contains (c : codepoint) (s : pystr) : bool :=
  existsb (N.eqb c) s.

(** [s.find(c)]: lowest index of [c] in [s], or [-1]. *)
Fixpoint find_from (c : codepoint) (s : pystr) (i : Z) : Z :=
  match s with
  | [] => (-1)%Z
  | x :: r => if N.eqb x c then i else find_from c r (i + 1)%Z
  end.

Definition find (c : codepoint) (s : pystr) : Z := find_from c s 0%Z.

(** Slices [s[:e]] and [s[b:]], with Python's reading of negative bounds. *)
Definition norm_index (s : pystr) (i : Z) : nat :=
  if (i <? 0)%Z then Z.to_nat (Z.max 0 (Z.of_nat (List.length s) + i))
  else Z.to_nat i.

Definition slice_to (s : pystr) (e : Z) : pystr := firstn (norm_index s e) s.
Definition slice_from (s : pystr) (b : Z) : pystr := skipn (norm_index s b) s.

(** [str.isspace] on one code point (the interpreter's whitespace table). *)
Definition py_isspace (c : codepoint) : bool :=
  ((0x09 <=? c) && (c <=? 0x0d))
  || ((0x1c <=? c) && (c <=? 0x20))
  || (c =? 0x85) || (c =? 0xa0) || (c =? 0x1680)
  || ((0x2000 <=? c) && (c <=? 0x200a))
  || (c =? 0x2028) || (c =? 0x2029) || (c =? 0x202f)
  || (c =? 0x205f) || (c =? 0x3000).

Fixpoint lstrip (s : pystr) : pystr :=
  match s with
  | [] => []
  | c :: r => if py_isspace c then lstrip r else s
  end.

Definition rstrip (s : pystr) : pystr := rev (lstrip (rev s)).

(** [s.strip()] *)
Definition strip (s : pystr) : pystr := rstrip (lstrip s).

(** [s.replace(a, b)] for one-character [a] and [b]. *)
Definition replace (a b : codepoint) (s : pystr) : pystr :=
  map (fun c => if N.eqb c a then b else c) s.

(** [s.split(sep)] for a one-character separator. *)
Fixpoint split_on (sep : codepoint) (s : pystr) : list pystr :=
  match s with
  | [] => [[]]
  | c :: r =>
    if N.eqb c sep then [] :: split_on sep r
    else match split_on sep r with
         | [] => [[c]]
         | w :: ws => (c :: w) :: ws
         end
  end.

(** Truthiness of a string: [if s:] *)
Definition truthy (s : pystr) : bool :=
  match s with [] => false | _ => true end.

(** [str(n)] for a non-negative integer. *)
Definition str_of_N (n : N) : pystr :=
  lit (NilEmpty.string_of_uint (N.to_uint n)).

(** *** UTF-8 decoding with [errors='ignore']

    [bytes.decode('utf-8', errors='ignore')]: well-formed sequences give
    their code point; an ill-formed sequence is skipped up to the byte
    at which the decoder detects the error; a sequence cut short by the
    end of the data is skipped whole. *)

Definition is_cont (b : N) : bool := (0x80 <=? b) && (b <=? 0xbf).

Definition second_ok3 (b0 b1 : N) : bool :=
  is_cont b1
  && (if b0 =? 0xe0 then 0xa0 <=? b1 else true)      (* no overlong form *)
  && (if b0 =? 0xed then b1 <? 0xa0 else true).      (* no surrogate *)

Definition second_ok4 (b0 b1 : N) : bool :=
  is_cont b1
  && (if b0 =? 0xf0 then 0x90 <=? b1 else true)      (* no overlong form *)
  && (if b0 =? 0xf4 then b1 <? 0x90 else true).      (* at most U+10FFFF *)

Fixpoint decode_N (bs : list N) : pystr :=
  match bs with
  | [] => []
  | b0 :: r0 =>
    if b0 <? 0x80 then b0 :: decode_N r0
    else if b0 <? 0xc2 then decode_N r0              (* invalid start byte *)
    else if b0 <? 0xe0 then
      match r0 with
      | [] => []
      | b1 :: r1 =>
        if is_cont b1
        then ((b0 - 0xc0) * 64 + (b1 - 0x80)) :: decode_N r1
        else decode_N r0
      end
    else if b0 <? 0xf0 then
      match r0 with
      | [] => []
      | b1 :: r1 =>
        if second_ok3 b0 b1 then
          match r1 with
          | [] => []
          | b2 :: r2 =>
            if is_cont b2
            then ((b0 - 0xe0) * 4096 + (b1 - 0x80) * 64 + (b2 - 0x80))
                   :: decode_N r2
            else decode_N r1
          end
        else decode_N r0
      end
    else if b0 <? 0xf5 then
      match r0 with
      | [] => []
      | b1 :: r1 =>
        if second_ok4 b0 b1 then
          match r1 with
          | [] => []
          | b2 :: r2 =>
            if is_cont b2 then
              match r2 with
              | [] => []
              | b3 :: r3 =>
                if is_cont b3
                then ((b0 - 0xf0) * 262144 + (b1 - 0x80) * 4096
                      + (b2 - 0x80) * 64 + (b3 - 0x80)) :: decode_N r3
                else decode_N r2
              end
            else decode_N r1
          end
        else decode_N r0
      end
    else decode_N r0                                  (* invalid start byte *)
  end.

Definition decode_utf8_ignore (data : list byte) : pystr :=
  decode_N (map Byte.to_N data).

(** The bytes of an ASCII text. *)
Definition ascii_bytes (s : pystr) : list byte :=
  map (fun c => match Byte.of_N c with Some b => b | None => x00 end) s.

End Text.

Import Text.

(* ================================================================== *)
(** ** Python values and exceptions *)
(* ================================================================== *)

Module Py.

(** Outcome of a computation that may raise; [Raise e] carries [str(e)]. *)
Inductive exc (A : Type) : Type :=
| Ok (a : A)
| Raise (e : pystr).

Arguments Ok {A} a.
Arguments Raise {A} e.

Definition bind {A B : Type} (m : exc A) (k : A -> exc B) : exc B :=
  match m with
  | Ok a => k a
  | Raise e => Raise e
  end.

(** The values a method of the server can return. *)
Inductive pyvalue : Type :=
| PyNone
| PyStr (s : pystr).

(** [l[i]] on a sequence. *)
Definition getitem (l : list pystr) (i : nat) : exc pystr :=
  match nth_error l i with
  | Some x => Ok x
  | None => Raise (lit "list index out of range")
  end.

End Py.

Import Py.

(* ================================================================== *)
(** ** Frame splitter and receive loop ([handle_client]) *)
(* ================================================================== *)

Module Framing.

(** What one turn of [while self.running: data = client_socket.recv(4096)]
    meets: the flag is down, [recv] returns bytes, or [recv] raises. *)
Inductive recv_event : Type :=
| NotRunning
| RecvData (data : list byte)
| RecvError (e : pystr).

(** How the loop of [handle_client] was left. *)
Inductive loop_exit : Type :=
| ServerStopped            (* [self.running] read as false *)
| EmptyData                (* [if not data: break] *)
| Raised (e : pystr).      (* exception caught by [handle_client] *)

Definition has_end_marker (buffer : pystr) : bool :=
  contains FS buffer || contains CR buffer.

(** [end_pos] as computed at the top of the inner loop. *)
Definition end_position (buffer : pystr) : Z :=
  let end_pos := find FS buffer in
  if (end_pos =? -1)%Z then find CR buffer else end_pos.

Section Loop.

Variable St : Type.
(** The call [self.process_message(message, client_socket, client_address)],
    as a transformer of whatever state it acts on. *)
Variable process_message : pystr -> St -> St.

(** The inner [while '\x1c' in buffer or '\r' in buffer:] loop. *)
Fixpoint frame_loop (fuel : nat) (buffer : pystr) (st : St) : pystr * St :=
  match fuel with
  | O => (buffer, st)
  | S fuel' =>
    if has_end_marker buffer then
      let end_pos := end_position buffer in
      if (end_pos =? -1)%Z then (buffer, st)
      else
        let message := strip (slice_to buffer end_pos) in
        let buffer' := slice_from buffer (end_pos + 1)%Z in
        let st' := if truthy message then process_message message st else st in
        frame_loop fuel' buffer' st'
    else (buffer, st)
  end.

(** What one turn does with the prefix [pre] cut off the buffer:
    [message = pre.strip()], handed on [if message:]. *)
Definition deliver (pre : pystr) (st : St) : St :=
  if truthy (strip pre) then process_message (strip pre) st else st.

(** Processing a list of messages in order. *)
Definition run (msgs : list pystr) (st : St) : St :=
  fold_left (fun s m => process_message m s) msgs st.

(** Every turn removes at least one character, so [length buffer] turns
    are enough (see [frame_loop_complete]). *)
Definition process_buffer (buffer : pystr) (st : St) : pystr * St :=
  frame_loop (S (List.length buffer)) buffer st.

(** The outer loop of [handle_client], on the sequence of [recv] outcomes. *)
Fixpoint receive_loop (events : list recv_event) (buffer : pystr) (st : St)
  : loop_exit * pystr * St :=
  match events with
  | [] => (ServerStopped, buffer, st)
  | NotRunning :: _ => (ServerStopped, buffer, st)
  | RecvError e :: _ => (Raised e, buffer, st)
  | RecvData bytes :: rest =>
    let data := decode_utf8_ignore bytes in
    if negb (truthy data) then (EmptyData, buffer, st)
    else
      let buffer := buffer ++ data in
      let '(buffer, st) := process_buffer buffer st in
      receive_loop rest buffer st
  end.

End Loop.

(** The frame splitter alone: the message texts handed to
    [process_message], in order. *)
Definition collect (message : pystr) (acc : list pystr) : list pystr :=
  acc ++ [message].

Definition split_buffer (buffer : pystr) : list pystr * pystr :=
  let '(rest, msgs) := process_buffer collect buffer [] in (msgs, rest).

Definition frames_of (events : list recv_event) : list pystr :=
  snd (receive_loop collect events [] []).

Definition exit_of (events : list recv_event) : loop_exit :=
  fst (fst (receive_loop collect events [] [])).

(** A message text as the stream carries it: free of the hard
    terminator, and not blank. *)
Definition well_formed (m : pystr) : Prop :=
  contains FS m = false /\ strip m <> [].

(** The text of a stream of messages, each followed by the hard terminator. *)
Definition hard_terminated (msgs : list pystr) : pystr :=
  List.concat (map (fun m => m ++ [FS]) msgs).

(** The pieces of a text that a hard terminator closes, and the text
    left after the last hard terminator. *)
Definition hard_frames (s : pystr) : list pystr := removelast (split_on FS s).
Definition pending (s : pystr) : pystr := last (split_on FS s) [].

(** What is handed on for a list of extracted pieces: each piece
    trimmed, blank ones dropped. *)
Definition handed_on (pieces : list pystr) : list pystr :=
  filter truthy (map strip pieces).

(** The text of a stream of messages, each followed by a carriage return. *)
Definition soft_terminated (msgs : list pystr) : pystr :=
  List.concat (map (fun m => m ++ [CR]) msgs).

(** An end marker of either kind. *)
Definition is_end_marker (c : codepoint) : bool := N.eqb FS c || N.eqb CR c.

(** A text cut at every end marker, of either kind. *)
Fixpoint cut_at_markers (s : pystr) : list pystr :=
  match s with
  | [] => [[]]
  | c :: r =>
    if is_end_marker c then [] :: cut_at_markers r
    else match cut_at_markers r with
         | [] => [[c]]
         | w :: ws => (c :: w) :: ws
         end
  end.

(** The pieces of a text that an end marker closes, and the text left
    after the last end marker. *)
Definition closed_pieces (s : pystr) : list pystr := removelast (cut_at_markers s).
Definition open_piece (s : pystr) : pystr := last (cut_at_markers s) [].

(** A text has one segment when cutting it at its carriage returns
    leaves at most one piece that is not blank: a text without carriage
    return, or one whose carriage returns only set off blank text, such
    as a single segment closed by a carriage return. *)
Definition one_segment (h : pystr) : bool :=
  (List.length (handed_on (split_on CR h)) <=? 1)%nat.

(** Every piece of the text that a hard terminator closes has one
    segment. *)
Definition steady (s : pystr) : Prop :=
  Forall (fun h => one_segment h = true) (hard_frames s).

End Framing.

Import Framing.

(* ================================================================== *)
(** ** Acknowledgment builders ([create_ack], [create_nak]) *)
(* ================================================================== *)

Module Ack.

(** A [datetime] value, seen through the formats the server uses. *)
Record datetime : Type := {
  strftime_file : pystr;      (* strftime('%Y%m%d_%H%M%S') *)
  strftime_compact : pystr;   (* strftime('%Y%m%d%H%M%S') *)
  isoformat : pystr;          (* isoformat() *)
  epoch : Z                   (* position on the time line *)
}.

Definition UNKNOWN : pystr := lit "UNKNOWN".

(** [str(msh[i]) if len(msh) > i else "UNKNOWN"] *)
Definition field_or_unknown (msh : list pystr) (i : nat) : pystr :=
  if i <? List.length msh then nth i msh [] else UNKNOWN.

(** The header segment of the positive reply. *)
Definition ack_header (f3 f4 timestamp control_id : pystr) : pystr :=
  lit "MSH|^~\&|HL7_SERVER||" ++ f3 ++ lit "|" ++ f4 ++ lit "|" ++ timestamp
    ++ lit "||ACK|" ++ control_id ++ lit "_ACK|P|2.3.1".

Definition ack_msa (control_id : pystr) : pystr :=
  lit "MSA|AA|" ++ control_id ++ lit "|Message accepted".

(** [create_ack(original_msh)]; [now] is the value of [datetime.now()].
    The segment is given by the [str] of each of its fields. *)
Definition create_ack (original_msh : list pystr) (now : datetime) : exc pystr :=
  let timestamp := strftime_compact now in
  let control_id := field_or_unknown original_msh 10 in
  bind (getitem original_msh 3) (fun f3 =>
  bind (getitem original_msh 4) (fun f4 =>
    let ack := ack_header f3 f4 timestamp control_id ++ [CR] in
    let ack := ack ++ ack_msa control_id ++ [CR] in
    Ok (ack ++ [FS]))).

Definition nak_header (timestamp control_id : pystr) : pystr :=
  lit "MSH|^~\&|HL7_SERVER||||" ++ timestamp ++ lit "||ACK|" ++ control_id
    ++ lit "_NAK|P|2.3.1".

Definition nak_msa (control_id error_msg : pystr) : pystr :=
  lit "MSA|AE|" ++ control_id ++ lit "|" ++ firstn 100 error_msg.

(** [create_nak(control_id, error_msg)] *)
Definition create_nak (control_id error_msg : pystr) (now : datetime) : pystr :=
  let timestamp := strftime_compact now in
  let nak := nak_header timestamp control_id ++ [CR] in
  let nak := nak ++ nak_msa control_id error_msg ++ [CR] in
  nak ++ [FS].


End Ack.

Import Ack.

(* ================================================================== *)
(** ** Message store and message processing *)
(* ================================================================== *)

Module Server.

(** One [*.hl7] entry of the message directory. *)
Record file : Type := {
  f_name : pystr;
  f_mtime : Z;
  f_body : pystr
}.

(** What [open(filepath, 'w')] followed by the writes can do: succeed,
    fail at [open] (nothing created), or fail after [written] characters
    reached the file. *)
Inductive write_outcome : Type :=
| WriteOk
| OpenFails (e : pystr)
| WriteFails (written : nat) (e : pystr).

(** The surroundings of the server: the operating system's answers, the
    clock, and the external parser.  [hl7_parse_msh text] stands for
    [hl7.parse(text).segment('MSH')], its result given by the [str] of
    each field of the segment. *)
Record environment : Type := {
  stat_ok : pystr -> bool;                    (* [file_path.stat()] succeeds *)
  unlink_error : pystr -> option pystr;       (* [file_path.unlink()] raises *)
  write_result : pystr -> write_outcome;
  clock : nat -> datetime;                    (* n-th [datetime.now()] *)
  hl7_parse_msh : pystr -> exc (list pystr)
}.

Inductive logentry : Type :=
| LogLimitReached (current_count : nat) (max_files : Z)
| LogCouldNotRemove (name e : pystr)
| LogBatchCleanup (removed_count remaining_files : nat)
| LogSaved (filename : pystr) (final_count : nat) (max_files : Z)
| LogSaveFailed (e : pystr)
| LogReceived (msg_type msg_control_id sending_app : pystr)
| LogAckSent (msg_control_id : pystr)
| LogProcessError (e : pystr)
| LogClientError (e : pystr)
| LogConnectionClosed.

(** The mutable state the server acts on. *)
Record world : Type := {
  w_dir : list file;                  (* [message_dir.glob('*.hl7')], in glob order *)
  w_log : list logentry;
  w_ticks : nat;                      (* calls of [datetime.now()] so far *)
  w_sends : list (option pystr);      (* outcome of the coming [send] calls *)
  w_wire : list pystr                 (* replies that reached the socket *)
}.

Definition set_dir (d : list file) (w : world) : world :=
  {| w_dir := d; w_log := w_log w; w_ticks := w_ticks w;
     w_sends := w_sends w; w_wire := w_wire w |}.

Definition logger (entry : logentry) (w : world) : world :=
  {| w_dir := w_dir w; w_log := w_log w ++ [entry]; w_ticks := w_ticks w;
     w_sends := w_sends w; w_wire := w_wire w |}.

Definition set_log (l : list logentry) (w : world) : world :=
  {| w_dir := w_dir w; w_log := l; w_ticks := w_ticks w;
     w_sends := w_sends w; w_wire := w_wire w |}.

(** [client_socket.send(text.encode('utf-8'))] *)
Definition send (text : pystr) (w : world) : exc unit * world :=
  match w_sends w with
  | Some e :: later =>
    (Raise e, {| w_dir := w_dir w; w_log := w_log w; w_ticks := w_ticks w;
                 w_sends := later; w_wire := w_wire w |})
  | None :: later =>
    (Ok tt, {| w_dir := w_dir w; w_log := w_log w; w_ticks := w_ticks w;
               w_sends := later; w_wire := w_wire w ++ [text] |})
  | [] =>
    (Ok tt, {| w_dir := w_dir w; w_log := w_log w; w_ticks := w_ticks w;
               w_sends := []; w_wire := w_wire w ++ [text] |})
  end.

(** Stable insertion by key, as [list.sort(key=lambda x: x[0])] orders. *)
Fixpoint insert_by_mtime (x : Z * file) (l : list (Z * file)) : list (Z * file) :=
  match l with
  | [] => [x]
  | y :: r => if (fst x <=? fst y)%Z then x :: l else y :: insert_by_mtime x r
  end.

Definition sort_by_mtime (l : list (Z * file)) : list (Z * file) :=
  fold_right insert_by_mtime [] l.

(** The order of the sorted listing: oldest first. *)
Definition older (a b : Z * file) : Prop := (fst a <= fst b)%Z.

(** Effect of [file_path.unlink()] on the directory. *)
Definition unlink (name : pystr) (dir : list file) : list file :=
  filter (fun f => negb (pystr_eqb (f_name f) name)) dir.

(** Effect of unlinking several entries in turn. *)
Definition unlink_all (victims : list file) (dir : list file) : list file :=
  fold_left (fun d f => unlink (f_name f) d) victims dir.

(** Effect of a completed [open(filepath, 'w')] and its writes. *)
Fixpoint put_file (new : file) (dir : list file) : list file :=
  match dir with
  | [] => [new]
  | f :: r => if pystr_eqb (f_name f) (f_name new) then new :: r
              else f :: put_file new r
  end.

Definition SLASH : codepoint := 0x2f%N.
Definition CARET : codepoint := 0x5e%N.
Definition UNDERSCORE : codepoint := 0x5f%N.

Section Methods.

(** [self.max_files] *)
Variable max_files : Z.
Variable env : environment.

(** [datetime.datetime.now()] *)
Definition now (w : world) : datetime * world :=
  (clock env (w_ticks w),
   {| w_dir := w_dir w; w_log := w_log w; w_ticks := S (w_ticks w);
      w_sends := w_sends w; w_wire := w_wire w |}).

(** [count_message_files] *)
Definition count_message_files (w : world) : nat := List.length (w_dir w).

(** The list [files] of [(mtime, file_path)] built by [cleanup_old_files];
    an entry whose [stat()] fails is passed over. *)
Definition stat_files (dir : list file) : list (Z * file) :=
  flat_map (fun f => if stat_ok env (f_name f) then [(f_mtime f, f)] else [])
           dir.

(** The entries that make it into [files]. *)
Definition listed (dir : list file) : list file :=
  filter (fun f => stat_ok env (f_name f)) dir.

(** The entries whose [unlink()] succeeds, and the warnings logged for
    the others. *)
Definition deletable (f : file) : bool :=
  match unlink_error env (f_name f) with
  | None => true
  | Some _ => false
  end.

Definition warnings (victims : list file) : list logentry :=
  flat_map (fun f => match unlink_error env (f_name f) with
                     | Some e => [LogCouldNotRemove (f_name f) e]
                     | None => []
                     end) victims.

(** [for _, file_path in files[:files_to_remove]: ...] *)
Fixpoint remove_loop (victims : list (Z * file)) (dir : list file)
         (log : list logentry) (removed_count : nat)
  : list file * list logentry * nat :=
  match victims with
  | [] => (dir, log, removed_count)
  | (_, f) :: rest =>
    match unlink_error env (f_name f) with
    | None => remove_loop rest (unlink (f_name f) dir) log (S removed_count)
    | Some e =>
      remove_loop rest dir (log ++ [LogCouldNotRemove (f_name f) e])
                  removed_count
    end
  end.

(** [cleanup_old_files] *)
Definition cleanup_old_files (w : world) : world :=
  let files := sort_by_mtime (stat_files (w_dir w)) in
  let files_to_remove := Nat.div (List.length files) 2 in
  if (0 <? files_to_remove)%nat then
    let '(dir, log, removed_count) :=
      remove_loop (firstn files_to_remove files) (w_dir w) (w_log w) 0%nat in
    let log :=
      if (0 <? removed_count)%nat
      then log ++ [LogBatchCleanup removed_count
                                   (List.length files - removed_count)]
      else log in
    set_log log (set_dir dir w)
  else w.

(** The entries the deletion loop of [cleanup_old_files] goes through,
    [files[:files_to_remove]], and the other entries of [files]. *)
Definition sorted_files (dir : list file) : list (Z * file) :=
  sort_by_mtime (stat_files dir).

Definition victims (dir : list file) : list file :=
  map snd (firstn (Nat.div (List.length (sorted_files dir)) 2) (sorted_files dir)).

Definition spared (dir : list file) : list file :=
  map snd (skipn (Nat.div (List.length (sorted_files dir)) 2) (sorted_files dir)).

(** The name under which [save_message] stores a message. *)
Definition filename_of (timestamp : datetime) (control_id msg_type : pystr)
  : pystr :=
  strftime_file timestamp ++ lit "_" ++ control_id ++ lit "_"
    ++ replace CARET UNDERSCORE msg_type ++ lit ".hl7".

(** The text written to the file. *)
Definition file_text (timestamp : datetime) (message_text control_id msg_type : pystr)
           (client_address : pystr * N) : pystr :=
  lit "# Received: " ++ isoformat timestamp ++ [LF]
    ++ lit "# From: " ++ fst client_address ++ lit ":"
    ++ str_of_N (snd client_address) ++ [LF]
    ++ lit "# Control ID: " ++ control_id ++ [LF]
    ++ lit "# Message Type: " ++ msg_type ++ [LF]
    ++ lit "#" ++ repeat 0x3d%N 50 ++ [LF]
    ++ message_text
    ++ [LF].

(** A file opened for writing appears in the listing of the message
    directory unless its name leads into a subdirectory. *)
Definition store (name body : pystr) (mtime : Z) (w : world) : world :=
  if contains SLASH name then w
  else set_dir (put_file {| f_name := name; f_mtime := mtime; f_body := body |}
                         (w_dir w)) w.

(** The state in which [save_message] opens the file: after the
    cleanup, if one was due, and the reading of the clock. *)
Definition before_write (w : world) : world :=
  snd (now (if (Z.of_nat (count_message_files w) >=? max_files)%Z
            then cleanup_old_files
                   (logger (LogLimitReached (count_message_files w) max_files) w)
            else w)).

(** [save_message]; the method has no [return] statement. *)
Definition save_message (message_text control_id msg_type : pystr)
           (client_address : pystr * N) (w : world) : pyvalue * world :=
  let current_count := count_message_files w in
  let w :=
    if (Z.of_nat current_count >=? max_files)%Z
    then cleanup_old_files (logger (LogLimitReached current_count max_files) w)
    else w in
  let '(timestamp, w) := now w in
  let filename := filename_of timestamp control_id msg_type in
  let text := file_text timestamp message_text control_id msg_type
                        client_address in
  match write_result env filename with
  | OpenFails e => (PyNone, logger (LogSaveFailed e) w)
  | WriteFails written e =>
    (PyNone,
     logger (LogSaveFailed e)
            (store filename (firstn written text) (epoch timestamp) w))
  | WriteOk =>
    let w := store filename text (epoch timestamp) w in
    let final_count := count_message_files w in
    (PyNone, logger (LogSaved filename final_count max_files) w)
  end.

(** The [try] block of [process_message]. *)
Definition process_try (message_text : pystr) (client_address : pystr * N)
           (w : world) : exc unit * world :=
  match hl7_parse_msh env (replace LF CR message_text) with
  | Raise e => (Raise e, w)
  | Ok msh =>
    let msg_control_id := field_or_unknown msh 10 in
    let msg_type := field_or_unknown msh 9 in
    let sending_app := field_or_unknown msh 3 in
    let w := logger (LogReceived msg_type msg_control_id sending_app) w in
    let '(_, w) := save_message message_text msg_control_id msg_type
                                client_address w in
    let '(timestamp, w) := now w in
    match create_ack msh timestamp with
    | Raise e => (Raise e, w)
    | Ok ack_message =>
      match send ack_message w with
      | (Raise e, w) => (Raise e, w)
      | (Ok _, w) => (Ok tt, logger (LogAckSent msg_control_id) w)
      end
    end
  end.

(** The [except Exception as e:] block of [process_message]. *)
Definition process_except (e : pystr) (w : world) : world :=
  let w := logger (LogProcessError e) w in
  let '(timestamp, w) := now w in
  let nak_message := create_nak UNKNOWN e timestamp in
  snd (send nak_message w).      (* a failing [send] is passed over *)

(** [process_message] *)
Definition process_message (client_address : pystr * N) (message_text : pystr)
           (w : world) : world :=
  match process_try message_text client_address w with
  | (Ok _, w) => w
  | (Raise e, w) => process_except e w
  end.

(** [handle_client] *)
Definition handle_client (client_address : pystr * N)
           (events : list recv_event) (w : world) : loop_exit * world :=
  let '(how, _, w) :=
    receive_loop (process_message client_address) events [] w in
  let w := match how with
           | Raised e => logger (LogClientError e) w
           | _ => w
           end in
  (how, logger LogConnectionClosed w).

End Methods.

(** *** The exchange as the client sees it

    The part of the state a client can observe or influence: the clock
    readings made so far, the fate of the coming [send] calls, and the
    replies on the wire.  [exchange] describes what [process_message]
    does to it ([process_message_exchange] below proves the agreement);
    neither the directory nor the answers of the file system occur. *)

Definition conversation : Type := (nat * list (option pystr) * list pystr)%type.

Definition client_view (w : world) : conversation :=
  (w_ticks w, w_sends w, w_wire w).

Definition attempt_send (text : pystr) (c : conversation) : exc unit * conversation :=
  let '(ticks, sends, wire) := c in
  match sends with
  | Some e :: later => (Raise e, (ticks, later, wire))
  | None :: later => (Ok tt, (ticks, later, wire ++ [text]))
  | [] => (Ok tt, (ticks, [], wire ++ [text]))
  end.

Definition exchange_nak (clock : nat -> datetime) (e : pystr) (c : conversation)
  : conversation :=
  let '(ticks, sends, wire) := c in
  snd (attempt_send (create_nak UNKNOWN e (clock ticks)) (S ticks, sends, wire)).

Definition exchange (clock : nat -> datetime)
           (parse : pystr -> exc (list pystr)) (message_text : pystr)
           (c : conversation) : conversation :=
  let '(ticks, sends, wire) := c in
  match parse (replace LF CR message_text) with
  | Raise e => exchange_nak clock e c
  | Ok msh =>
    match create_ack msh (clock (S ticks)) with
    | Raise e => exchange_nak clock e (S (S ticks), sends, wire)
    | Ok ack_message =>
      match attempt_send ack_message (S (S ticks), sends, wire) with
      | (Raise e, c') => exchange_nak clock e c'
      | (Ok _, c') => c'
      end
    end
  end.

End Server.

Import Server.

(* ================================================================== *)
(** ** A concrete environment, for running the model *)
(* ================================================================== *)

Module Demo.

Definition PIPE : codepoint := 0x7c%N.

(** A stand-in for the external parser, used only to run the model on
    concrete messages.  On a text that starts with an [MSH] segment of at
    least four fields it gives the fields as the parser does: field 0 is
    the segment name, field 1 the field separator, the remaining fields
    follow.  Every other text it refuses or reads in its own way; the
    wording of its refusal is not the parser's. *)
Definition parse_msh (text : pystr) : exc (list pystr) :=
  match split_on CR text with
  | [] => Raise (lit "'MSH'")
  | first :: _ =>
    match split_on PIPE first with
    | name :: fields =>
      if pystr_eqb name (lit "MSH") then Ok (name :: [PIPE] :: fields)
      else Raise (lit "'MSH'")
    | [] => Raise (lit "'MSH'")
    end
  end.

Definition two_digits (n : nat) : pystr :=
  [(48 + N.of_nat (Nat.div n 10))%N; (48 + N.of_nat (Nat.modulo n 10))%N].

(** A clock that advances one second per reading, from 2024-01-01 12:00:00. *)
Definition second_clock (n : nat) : datetime :=
  {| strftime_file := lit "20240101_1200" ++ two_digits n;
     strftime_compact := lit "202401011200" ++ two_digits n;
     isoformat := lit "2024-01-01T12:00:" ++ two_digits n;
     epoch := 1704110400 + Z.of_nat n |}.

(** Every system call succeeds. *)
Definition env : environment :=
  {| stat_ok := fun _ => true;
     unlink_error := fun _ => None;
     write_result := fun _ => WriteOk;
     clock := second_clock;
     hl7_parse_msh := parse_msh |}.

(** The same, with a disk that refuses every write. *)
Definition env_disk_full : environment :=
  {| stat_ok := fun _ => true;
     unlink_error := fun _ => None;
     write_result := fun _ => OpenFails (lit "[Errno 28] No space left on device");
     clock := second_clock;
     hl7_parse_msh := parse_msh |}.

Definition empty_world : world :=
  {| w_dir := []; w_log := []; w_ticks := 0; w_sends := []; w_wire := [] |}.

Definition client : pystr * N := (lit "10.0.0.7", 40123%N).

(** [MSH|^~\&|DEV||HOSP||20240101120000||ORU^W01|CTRL1|P|2.3.1] *)
Definition msg1 : pystr :=
  lit "MSH|^~\&|DEV||HOSP||20240101120000||ORU^W01|CTRL1|P|2.3.1".

Definition msg2 : pystr :=
  lit "MSH|^~\&|DEV||HOSP||20240101120001||ORU^W01|CTRL2|P|2.3.1".

(** A directory of five stored messages. *)
Definition five_files : world :=
  {| w_dir := [ {| f_name := lit "a.hl7"; f_mtime := 50; f_body := [] |};
                {| f_name := lit "b.hl7"; f_mtime := 10; f_body := [] |};
                {| f_name := lit "c.hl7"; f_mtime := 40; f_body := [] |};
                {| f_name := lit "d.hl7"; f_mtime := 20; f_body := [] |};
                {| f_name := lit "e.hl7"; f_mtime := 30; f_body := [] |} ];
     w_log := []; w_ticks := 0; w_sends := []; w_wire := [] |}.

(** A connection on which the next [send] fails. *)
Definition broken_pipe : world :=
  {| w_dir := []; w_log := []; w_ticks := 0;
     w_sends := [Some (lit "[Errno 32] Broken pipe")]; w_wire := [] |}.

End Demo.

(* ================================================================== *)
(** ** Construction of the server ([HL7Server.__init__]) *)
(* ================================================================== *)

Module Startup.

(** The two messages [__init__] logs; they precede whatever the initial
    cleanup logs. *)
Inductive startup_entry : Type :=
| LogInitialized (initial_count : nat) (max_files : Z)
| LogInitialCleanup (initial_count : nat) (max_files : Z).

(** [__init__], from the point where the message directory exists: the
    files are counted, and the cleanup runs once if the count is above
    [max_files]. *)
Definition init (max_files : Z) (env : environment) (w : world)
  : list startup_entry * world :=
  let initial_count := count_message_files w in
  if (Z.of_nat initial_count >? max_files)%Z
  then ([LogInitialized initial_count max_files;
         LogInitialCleanup initial_count max_files],
        cleanup_old_files env w)
  else ([LogInitialized initial_count max_files], w).

(** A file system that refuses no [stat()] and no [unlink()]. *)
Definition obliging (env : environment) : Prop :=
  forall name, stat_ok env name = true /\ unlink_error env name = None.

(** The names of a directory are distinct. *)
Definition distinct_names (w : world) : Prop :=
  NoDup (map f_name (w_dir w)).

End Startup.

Import Startup.

(** Further concrete surroundings, for running the model. *)
Module Scenarios.

(** The entry [b.hl7] has vanished between the listing and its [stat()]. *)
Definition env_stale : environment :=
  {| stat_ok := fun name => negb (pystr_eqb name (lit "b.hl7"));
     unlink_error := fun _ => None;
     write_result := fun _ => WriteOk;
     clock := Demo.second_clock;
     hl7_parse_msh := Demo.parse_msh |}.

(** A clock that stands still. *)
Definition env_same_second : environment :=
  {| stat_ok := fun _ => true;
     unlink_error := fun _ => None;
     write_result := fun _ => WriteOk;
     clock := fun _ => Demo.second_clock 0;
     hl7_parse_msh := Demo.parse_msh |}.

(** A header segment of four fields: [MSH|^~\&|DEV]. *)
Definition short_msg : pystr := lit "MSH|^~\&|DEV".

(** A header segment without control id:
    [MSH|^~\&|DEV||HOSP||20240101120000||ORU^W01]. *)
Definition msg_without_id : pystr :=
  lit "MSH|^~\&|DEV||HOSP||20240101120000||ORU^W01".

(** A directory of four stored messages; [b.hl7] is the oldest. *)
Definition four_files : world :=
  {| w_dir := [ {| f_name := lit "a.hl7"; f_mtime := 50; f_body := [] |};
                {| f_name := lit "b.hl7"; f_mtime := 10; f_body := [] |};
                {| f_name := lit "c.hl7"; f_mtime := 40; f_body := [] |};
                {| f_name := lit "d.hl7"; f_mtime := 20; f_body := [] |} ];
     w_log := []; w_ticks := 0; w_sends := []; w_wire := [] |}.

End Scenarios.

(* ================================================================== *)
(** * Properties *)
(* ================================================================== *)

Unset Implicit Arguments.

Example demo_parse_msg1 :
  Demo.parse_msh Demo.msg1
  = Ok [lit "MSH"; lit "|"; lit "^~\&"; lit "DEV"; []; lit "HOSP"; [];
        lit "20240101120000"; []; lit "ORU^W01"; lit "CTRL1"; lit "P";
        lit "2.3.1"].
Proof. vm_compute. reflexivity. Qed.

Example demo_process_msg1 :
  let w := process_message 1000 Demo.env Demo.client Demo.msg1 Demo.empty_world in
  map f_name (w_dir w) = [lit "20240101_120000_CTRL1_ORU_W01.hl7"]
  /\ w_wire w
     = [lit "MSH|^~\&|HL7_SERVER||DEV||20240101120001||ACK|CTRL1_ACK|P|2.3.1"
          ++ [CR] ++ lit "MSA|AA|CTRL1|Message accepted" ++ [CR] ++ [FS]].
Proof. vm_compute. split; reflexivity. Qed.

(* ------------------------------------------------------------------ *)
(** ** Text *)
(* ------------------------------------------------------------------ *)

Section TextFacts.

Lemma contains_false_iff (c : codepoint) (s : pystr) :
  contains c s = false <-> ~ In c s.
Proof.
  unfold contains. split.
  - intros H Hin.
    assert (existsb (N.eqb c) s = true) as E.
    { apply existsb_exists. exists c. split; [assumption | apply N.eqb_refl]. }
    congruence.
  - intros Hn. destruct (existsb (N.eqb c) s) eqn:E; [ | reflexivity ].
    apply existsb_exists in E. destruct E as [x [Hx Hcx]].
    apply N.eqb_eq in Hcx. subst x. contradiction.
Qed.

Lemma contains_app (c : codepoint) (s t : pystr) :
  contains c (s ++ t) = contains c s || contains c t.
Proof. unfold contains. apply existsb_app. Qed.

Lemma contains_cons (c x : codepoint) (s : pystr) :
  contains c (x :: s) = N.eqb c x || contains c s.
Proof. reflexivity. Qed.

Lemma find_from_absent (c : codepoint) (s : pystr) (i : Z) :
  contains c s = false -> find_from c s i = (-1)%Z.
Proof.
  revert i. induction s as [ | x r IH]; intros i H; simpl.
  - reflexivity.
  - rewrite contains_cons in H. apply orb_false_iff in H. destruct H as [Hx Hr].
    rewrite N.eqb_sym, Hx. apply IH. assumption.
Qed.

Lemma find_from_first (c : codepoint) (pre post : pystr) (i : Z) :
  contains c pre = false ->
  find_from c (pre ++ c :: post) i = (i + Z.of_nat (List.length pre))%Z.
Proof.
  revert i. induction pre as [ | x r IH]; intros i H; simpl List.length; simpl app.
  - simpl. rewrite N.eqb_refl. lia.
  - rewrite contains_cons in H. apply orb_false_iff in H. destruct H as [Hx Hr].
    simpl. rewrite N.eqb_sym, Hx. rewrite IH by assumption. lia.
Qed.

Lemma find_first (c : codepoint) (pre post : pystr) :
  contains c pre = false ->
  find c (pre ++ c :: post) = Z.of_nat (List.length pre).
Proof. intros H. unfold find. rewrite find_from_first by assumption. lia. Qed.

Lemma contains_split (c : codepoint) (s : pystr) :
  contains c s = true ->
  exists pre post, s = pre ++ c :: post /\ contains c pre = false.
Proof.
  induction s as [ | x r IH]; intros H.
  - discriminate.
  - rewrite contains_cons in H. destruct (N.eqb c x) eqn:E.
    + apply N.eqb_eq in E. subst x. exists [], r. split; reflexivity.
    + simpl in H. destruct (IH H) as [pre [post [Heq Hpre]]].
      exists (x :: pre), post. split.
      * simpl. congruence.
      * rewrite contains_cons, E. assumption.
Qed.

Lemma slice_to_prefix (pre post : pystr) :
  slice_to (pre ++ post) (Z.of_nat (List.length pre)) = pre.
Proof.
  unfold slice_to, norm_index.
  destruct (Z.ltb_spec (Z.of_nat (List.length pre)) 0); [lia | ].
  rewrite Nat2Z.id. rewrite firstn_app, Nat.sub_diag, firstn_all. simpl.
  apply app_nil_r.
Qed.

Lemma slice_from_suffix (pre : pystr) (x : codepoint) (post : pystr) :
  slice_from (pre ++ x :: post) (Z.of_nat (List.length pre) + 1) = post.
Proof.
  unfold slice_from, norm_index.
  destruct (Z.ltb_spec (Z.of_nat (List.length pre) + 1) 0); [lia | ].
  replace (Z.to_nat (Z.of_nat (List.length pre) + 1)) with (List.length pre + 1)%nat by lia.
  replace (pre ++ x :: post) with ((pre ++ [x]) ++ post)
    by (rewrite <- app_assoc; reflexivity).
  rewrite skipn_app.
  rewrite skipn_all2 by (rewrite length_app; simpl; lia).
  rewrite length_app. simpl.
  replace (List.length pre + 1 - (List.length pre + 1))%nat with 0%nat by lia.
  reflexivity.
Qed.

(** On ASCII bytes the decoder is the identity. *)
Lemma decode_N_ascii (bs : list N) :
  Forall (fun b => (b < 0x80)%N) bs -> decode_N bs = bs.
Proof.
  induction 1 as [ | b r Hb _ IH].
  - reflexivity.
  - simpl. destruct (N.ltb_spec b 0x80); [ | lia ]. rewrite IH. reflexivity.
Qed.

(** Induction along the occurrences of a separator. *)
Lemma sep_induction (c : codepoint) (P : pystr -> Prop) :
  (forall s, contains c s = false -> P s) ->
  (forall pre post, contains c pre = false -> P post -> P (pre ++ c :: post)) ->
  forall s, P s.
Proof.
  intros Hbase Hstep s.
  remember (List.length s) as n eqn:Hn.
  revert s Hn. induction n as [n IH] using lt_wf_ind. intros s Hn.
  destruct (contains c s) eqn:Hc.
  - destruct (contains_split c s Hc) as [pre [post [Heq Hpre]]]. subst s.
    apply Hstep; [assumption | ].
    apply (IH (List.length post)); [ | reflexivity].
    subst n. rewrite length_app. simpl. lia.
  - apply Hbase. assumption.
Qed.

End TextFacts.

(* ------------------------------------------------------------------ *)
(** ** Trimming *)
(* ------------------------------------------------------------------ *)

Section Trimming.

Lemma lstrip_head (s : pystr) :
  match lstrip s with
  | [] => True
  | c :: _ => py_isspace c = false
  end.
Proof.
  induction s as [ | c r IH]; simpl.
  - exact I.
  - destruct (py_isspace c) eqn:E; [exact IH | exact E].
Qed.

Lemma lstrip_fixed (c : codepoint) (r : pystr) :
  py_isspace c = false -> lstrip (c :: r) = c :: r.
Proof. intros H. simpl. rewrite H. reflexivity. Qed.

Lemma lstrip_idem (s : pystr) : lstrip (lstrip s) = lstrip s.
Proof.
  pose proof (lstrip_head s) as H. destruct (lstrip s) as [ | c r].
  - reflexivity.
  - apply lstrip_fixed. exact H.
Qed.

Lemma lstrip_split (s : pystr) :
  exists blank, s = blank ++ lstrip s
                /\ Forall (fun c => py_isspace c = true) blank.
Proof.
  induction s as [ | c r IH]; simpl.
  - exists []. split; [reflexivity | constructor].
  - destruct (py_isspace c) eqn:E.
    + destruct IH as [blank [Heq Hall]]. exists (c :: blank). split.
      * simpl. congruence.
      * constructor; assumption.
    + exists []. split; [reflexivity | constructor].
Qed.

Lemma lstrip_blank (s : pystr) :
  Forall (fun c => py_isspace c = true) s -> lstrip s = [].
Proof.
  induction 1 as [ | c r Hc _ IH]; simpl.
  - reflexivity.
  - rewrite Hc. exact IH.
Qed.

Lemma strip_blank (s : pystr) :
  Forall (fun c => py_isspace c = true) s -> strip s = [].
Proof.
  intros H. unfold strip, rstrip. rewrite (lstrip_blank s H). reflexivity.
Qed.

Lemma lstrip_incl (s : pystr) : incl (lstrip s) s.
Proof.
  destruct (lstrip_split s) as [blank [Heq _]]. intros x Hx.
  rewrite Heq. apply in_or_app. right. exact Hx.
Qed.

Lemma strip_incl (s : pystr) : incl (strip s) s.
Proof.
  intros x Hx. unfold strip, rstrip in Hx.
  apply in_rev in Hx. apply lstrip_incl in Hx. apply in_rev in Hx.
  apply lstrip_incl. exact Hx.
Qed.

Lemma strip_idem (s : pystr) : strip (strip s) = strip s.
Proof.
  unfold strip, rstrip.
  set (a := lstrip s). set (b := lstrip (rev a)).
  assert (lstrip (rev b) = rev b) as Hfront.
  { destruct (lstrip_split (rev a)) as [blank [Heq _]]. fold b in Heq.
    assert (a = rev b ++ rev blank) as Ha.
    { rewrite <- (rev_involutive a), Heq, rev_app_distr. reflexivity. }
    destruct (rev b) as [ | c t] eqn:Hb; [reflexivity | ].
    apply lstrip_fixed.
    pose proof (lstrip_head s) as Hh. fold a in Hh. rewrite Ha in Hh.
    exact Hh. }
  rewrite Hfront, rev_involutive. unfold b. rewrite lstrip_idem. reflexivity.
Qed.

Lemma strip_keeps_absent (c : codepoint) (s : pystr) :
  contains c s = false -> contains c (strip s) = false.
Proof.
  rewrite !contains_false_iff. intros H Hin. apply H.
  apply (strip_incl s). exact Hin.
Qed.

Lemma lstrip_app_blank (a x : pystr) :
  Forall (fun c => py_isspace c = true) a -> lstrip (a ++ x) = lstrip x.
Proof.
  induction 1 as [ | c r Hc _ IH]; simpl.
  - reflexivity.
  - rewrite Hc. exact IH.
Qed.

Lemma lstrip_app_solid (a x : pystr) :
  lstrip a <> [] -> lstrip (a ++ x) = lstrip a ++ x.
Proof.
  induction a as [ | c r IH]; simpl; intros H.
  - contradiction.
  - destruct (py_isspace c); [apply IH; exact H | reflexivity].
Qed.

Lemma lstrip_nil_blank (s : pystr) :
  lstrip s = [] -> Forall (fun c => py_isspace c = true) s.
Proof.
  intros H. destruct (lstrip_split s) as [blank [Heq Hall]].
  rewrite H, app_nil_r in Heq. rewrite Heq. exact Hall.
Qed.

Lemma strip_nil_blank (s : pystr) :
  strip s = [] -> Forall (fun c => py_isspace c = true) s.
Proof.
  unfold strip, rstrip. intros H.
  assert (lstrip (rev (lstrip s)) = []) as H1.
  { rewrite <- (rev_involutive (lstrip (rev (lstrip s)))), H. reflexivity. }
  apply lstrip_nil_blank in H1. apply Forall_rev in H1.
  rewrite rev_involutive in H1.
  apply lstrip_nil_blank.
  pose proof (lstrip_head s) as Hh. destruct (lstrip s) as [ | c r].
  - reflexivity.
  - inversion H1; subst. congruence.
Qed.

Lemma rstrip_app_blank (a b : pystr) :
  Forall (fun c => py_isspace c = true) b -> rstrip (a ++ b) = rstrip a.
Proof.
  intros H. unfold rstrip. rewrite rev_app_distr.
  rewrite lstrip_app_blank by (apply Forall_rev; exact H). reflexivity.
Qed.

Lemma strip_app_blank_l (a x : pystr) :
  Forall (fun c => py_isspace c = true) a -> strip (a ++ x) = strip x.
Proof. intros H. unfold strip. rewrite lstrip_app_blank by exact H. reflexivity. Qed.

Lemma strip_app_blank_r (a b : pystr) :
  Forall (fun c => py_isspace c = true) b -> strip (a ++ b) = strip a.
Proof.
  intros H. unfold strip. destruct (lstrip a) as [ | c r] eqn:Ha.
  - rewrite lstrip_app_blank by (apply lstrip_nil_blank; exact Ha).
    rewrite (lstrip_blank b H). reflexivity.
  - rewrite lstrip_app_solid by (rewrite Ha; discriminate).
    rewrite Ha. apply rstrip_app_blank. exact H.
Qed.

End Trimming.

(* ------------------------------------------------------------------ *)
(** ** Frame splitter *)
(* ------------------------------------------------------------------ *)

Section FramingFacts.

(** A buffer with an end marker splits around the boundary the code
    chooses: the first hard terminator if there is one, otherwise the
    first carriage return. *)
Lemma end_marker_split (buffer : pystr) :
  has_end_marker buffer = true ->
  exists pre t post,
    buffer = pre ++ t :: post
    /\ end_position buffer = Z.of_nat (List.length pre)
    /\ ((t = FS /\ contains FS pre = false)
        \/ (t = CR /\ contains FS buffer = false /\ contains CR pre = false)).
Proof.
  unfold has_end_marker, end_position. intros H.
  destruct (contains FS buffer) eqn:Hfs.
  - destruct (contains_split _ _ Hfs) as [pre [post [Heq Hpre]]].
    exists pre, FS, post. subst buffer. rewrite find_first by assumption.
    split; [reflexivity | ]. split.
    + destruct (Z.eqb_spec (Z.of_nat (List.length pre)) (-1)); [lia | reflexivity].
    + left. split; [reflexivity | assumption].
  - simpl in H. destruct (contains_split _ _ H) as [pre [post [Heq Hpre]]].
    exists pre, CR, post. split; [assumption | ].
    rewrite (find_from_absent _ _ 0 Hfs : find FS buffer = (-1)%Z). simpl.
    split.
    + subst buffer. apply find_first. assumption.
    + right. repeat split; assumption.
Qed.

Variable St : Type.
Variable process : pystr -> St -> St.

Lemma frame_loop_turn (fuel : nat) (buffer pre post : pystr) (t : codepoint) (st : St) :
  has_end_marker buffer = true ->
  buffer = pre ++ t :: post ->
  end_position buffer = Z.of_nat (List.length pre) ->
  frame_loop process (S fuel) buffer st = frame_loop process fuel post (deliver process pre st).
Proof.
  intros Hm Heq Hpos. simpl. rewrite Hm, Hpos.
  destruct (Z.eqb_spec (Z.of_nat (List.length pre)) (-1)); [lia | ].
  subst buffer. rewrite slice_to_prefix, slice_from_suffix. reflexivity.
Qed.

Lemma frame_loop_idle (fuel : nat) (buffer : pystr) (st : St) :
  has_end_marker buffer = false ->
  frame_loop process fuel buffer st = (buffer, st).
Proof. intros H. destruct fuel; simpl; [ | rewrite H ]; reflexivity. Qed.

(** Fuel beyond the length of the buffer changes nothing. *)
Lemma frame_loop_fuel (n m : nat) (buffer : pystr) (st : St) :
  (List.length buffer < n)%nat -> (List.length buffer < m)%nat ->
  frame_loop process n buffer st = frame_loop process m buffer st.
Proof.
  revert m buffer st. induction n as [ | n IH]; intros m buffer st Hn Hm; [lia | ].
  destruct m as [ | m]; [lia | ].
  destruct (has_end_marker buffer) eqn:Hmark.
  - destruct (end_marker_split _ Hmark) as [pre [t [post [Heq [Hpos _]]]]].
    rewrite (frame_loop_turn n _ _ _ _ st Hmark Heq Hpos).
    rewrite (frame_loop_turn m _ _ _ _ st Hmark Heq Hpos).
    assert (List.length post < List.length buffer)%nat as Hlen.
    { subst buffer. rewrite length_app. simpl. lia. }
    apply IH; lia.
  - rewrite !frame_loop_idle by assumption. reflexivity.
Qed.

(** The inner loop runs until no end marker is left in the buffer. *)
Lemma frame_loop_complete (buffer : pystr) (st : St) :
  has_end_marker (fst (process_buffer process buffer st)) = false.
Proof.
  unfold process_buffer.
  remember (S (List.length buffer)) as n eqn:Hn.
  assert (List.length buffer < n)%nat as Hlt by lia. clear Hn.
  revert buffer st Hlt. induction n as [ | n IH]; intros buffer st Hlt; [lia | ].
  destruct (has_end_marker buffer) eqn:Hmark.
  - destruct (end_marker_split _ Hmark) as [pre [t [post [Heq [Hpos _]]]]].
    rewrite (frame_loop_turn n _ _ _ _ st Hmark Heq Hpos).
    apply IH. subst buffer. rewrite length_app in Hlt. simpl in Hlt. lia.
  - rewrite frame_loop_idle by assumption. assumption.
Qed.

Lemma process_buffer_turn (buffer pre post : pystr) (t : codepoint) (st : St) :
  has_end_marker buffer = true ->
  buffer = pre ++ t :: post ->
  end_position buffer = Z.of_nat (List.length pre) ->
  process_buffer process buffer st = process_buffer process post (deliver process pre st).
Proof.
  intros Hm Heq Hpos. unfold process_buffer.
  rewrite (frame_loop_turn (List.length buffer) _ _ _ _ st Hm Heq Hpos).
  apply frame_loop_fuel; [subst buffer; rewrite length_app; simpl; lia | lia].
Qed.

Lemma process_buffer_idle (buffer : pystr) (st : St) :
  has_end_marker buffer = false ->
  process_buffer process buffer st = (buffer, st).
Proof. apply frame_loop_idle. Qed.

End FramingFacts.

Section FramingInduction.

Lemma end_position_hard (pre post : pystr) :
  contains FS pre = false ->
  has_end_marker (pre ++ FS :: post) = true
  /\ end_position (pre ++ FS :: post) = Z.of_nat (List.length pre).
Proof.
  intros Hpre. unfold has_end_marker, end_position. split.
  - rewrite contains_app, contains_cons. simpl. rewrite orb_true_r. reflexivity.
  - rewrite find_first by assumption.
    destruct (Z.eqb_spec (Z.of_nat (List.length pre)) (-1)); [lia | reflexivity].
Qed.

(** Induction along the turns of the inner loop. *)
Lemma frame_induction (P : pystr -> Prop) :
  (forall buffer, has_end_marker buffer = false -> P buffer) ->
  (forall buffer pre t post,
      has_end_marker buffer = true ->
      buffer = pre ++ t :: post ->
      end_position buffer = Z.of_nat (List.length pre) ->
      (t = FS /\ contains FS pre = false)
      \/ (t = CR /\ contains FS buffer = false /\ contains CR pre = false) ->
      P post -> P buffer) ->
  forall buffer, P buffer.
Proof.
  intros Hidle Hturn buffer.
  remember (List.length buffer) as n eqn:Hn.
  revert buffer Hn. induction n as [n IH] using lt_wf_ind. intros buffer Hn.
  destruct (has_end_marker buffer) eqn:Hmark.
  - destruct (end_marker_split _ Hmark) as [pre [t [post [Heq [Hpos Hcase]]]]].
    apply (Hturn buffer pre t post Hmark Heq Hpos Hcase).
    apply (IH (List.length post)); [ | reflexivity ].
    subst n buffer. rewrite length_app. simpl. lia.
  - apply Hidle. assumption.
Qed.

(** *** Splitting at the hard terminator *)

Lemma split_on_first (sep : codepoint) (pre post : pystr) :
  contains sep pre = false ->
  split_on sep (pre ++ sep :: post) = pre :: split_on sep post.
Proof.
  induction pre as [ | c r IH]; intros H.
  - simpl. rewrite N.eqb_refl. reflexivity.
  - rewrite contains_cons in H. apply orb_false_iff in H. destruct H as [Hc Hr].
    simpl. rewrite N.eqb_sym, Hc. rewrite (IH Hr). reflexivity.
Qed.

Lemma split_on_absent (sep : codepoint) (s : pystr) :
  contains sep s = false -> split_on sep s = [s].
Proof.
  induction s as [ | c r IH]; intros H.
  - reflexivity.
  - rewrite contains_cons in H. apply orb_false_iff in H. destruct H as [Hc Hr].
    simpl. rewrite N.eqb_sym, Hc. rewrite (IH Hr). reflexivity.
Qed.

Lemma split_on_nonempty (sep : codepoint) (s : pystr) : split_on sep s <> [].
Proof.
  destruct s as [ | c r]; simpl.
  - discriminate.
  - destruct (N.eqb c sep); [discriminate | ].
    destruct (split_on sep r); discriminate.
Qed.

Lemma hard_frames_first (pre post : pystr) :
  contains FS pre = false ->
  hard_frames (pre ++ FS :: post) = pre :: hard_frames post
  /\ pending (pre ++ FS :: post) = pending post.
Proof.
  intros H. unfold hard_frames, pending. rewrite (split_on_first FS pre post H).
  pose proof (split_on_nonempty FS post) as Hne.
  destruct (split_on FS post) as [ | x l]; [contradiction | ].
  split; reflexivity.
Qed.

Lemma hard_frames_absent (s : pystr) :
  contains FS s = false -> hard_frames s = [] /\ pending s = s.
Proof.
  intros H. unfold hard_frames, pending. rewrite (split_on_absent FS s H).
  split; reflexivity.
Qed.

(** Induction along the hard terminators of a text. *)
Lemma fs_induction (P : pystr -> Prop) :
  (forall s, contains FS s = false -> P s) ->
  (forall pre post, contains FS pre = false -> P post -> P (pre ++ FS :: post)) ->
  forall s, P s.
Proof.
  intros Hbase Hstep s.
  remember (List.length s) as n eqn:Hn.
  revert s Hn. induction n as [n IH] using lt_wf_ind. intros s Hn.
  destruct (contains FS s) eqn:Hfs.
  - destruct (contains_split FS s Hfs) as [pre [post [Heq Hpre]]]. subst s.
    apply Hstep; [assumption | ].
    apply (IH (List.length post)); [ | reflexivity].
    subst n. rewrite length_app. simpl. lia.
  - apply Hbase. assumption.
Qed.

Lemma pending_no_FS (s : pystr) : contains FS (pending s) = false.
Proof.
  induction s as [s H | pre post Hpre IH] using fs_induction.
  - destruct (hard_frames_absent s H) as [_ ->]. assumption.
  - destruct (hard_frames_first pre post Hpre) as [_ ->]. assumption.
Qed.

Lemma pending_contains (c : codepoint) (s : pystr) :
  contains c s = false -> contains c (pending s) = false.
Proof.
  induction s as [s H | pre post Hpre IH] using fs_induction; intros Hc.
  - destruct (hard_frames_absent s H) as [_ ->]. assumption.
  - destruct (hard_frames_first pre post Hpre) as [_ ->]. apply IH.
    rewrite contains_app, contains_cons in Hc.
    apply orb_false_iff in Hc. destruct Hc as [_ Hc].
    apply orb_false_iff in Hc. tauto.
Qed.

(** Appending text to a text and to what is pending of it. *)
Lemma hard_frames_app (a b : pystr) :
  hard_frames (a ++ b) = hard_frames a ++ hard_frames (pending a ++ b)
  /\ pending (a ++ b) = pending (pending a ++ b).
Proof.
  induction a as [a H | pre post Hpre IH] using fs_induction.
  - destruct (hard_frames_absent a H) as [-> ->]. split; reflexivity.
  - destruct (hard_frames_first pre post Hpre) as [-> ->].
    rewrite <- app_assoc. simpl.
    destruct (hard_frames_first pre (post ++ b) Hpre) as [-> ->].
    destruct IH as [-> ->]. split; reflexivity.
Qed.

Lemma hard_frames_hard_terminated (msgs : list pystr) :
  Forall (fun m => contains FS m = false) msgs ->
  hard_frames (hard_terminated msgs) = msgs
  /\ pending (hard_terminated msgs) = [].
Proof.
  induction 1 as [ | m rest Hm _ IH].
  - split; reflexivity.
  - unfold hard_terminated. simpl. rewrite <- app_assoc. simpl.
    fold (hard_terminated rest).
    destruct (hard_frames_first m (hard_terminated rest) Hm) as [-> ->].
    destruct IH as [-> ->]. split; reflexivity.
Qed.

Lemma handed_on_well_formed (msgs : list pystr) :
  Forall well_formed msgs -> handed_on msgs = map strip msgs.
Proof.
  unfold handed_on. induction 1 as [ | m rest [_ Hm] _ IH]; simpl.
  - reflexivity.
  - destruct (strip m) as [ | c r]; [contradiction | ]. simpl. rewrite IH. reflexivity.
Qed.

Lemma handed_on_app (a b : list pystr) :
  handed_on (a ++ b) = handed_on a ++ handed_on b.
Proof. unfold handed_on. rewrite map_app, filter_app. reflexivity. Qed.

(** *** The loops on such texts *)

Variable St : Type.
Variable process : pystr -> St -> St.

(** When no carriage return is left pending, one run of the inner loop
    hands on the pieces closed by a hard terminator and keeps the rest. *)
Lemma process_buffer_pending (s : pystr) (st : St) :
  contains CR (pending s) = false ->
  process_buffer process s st
  = (pending s, run process (handed_on (hard_frames s)) st).
Proof.
  revert st. induction s as [s H | pre post Hpre IH] using fs_induction;
    intros st Hcr.
  - destruct (hard_frames_absent s H) as [Hf Hp]. rewrite Hf, Hp in *.
    apply process_buffer_idle. unfold has_end_marker. rewrite H, Hcr. reflexivity.
  - destruct (hard_frames_first pre post Hpre) as [Hf Hp]. rewrite Hf, Hp in *.
    destruct (end_position_hard pre post Hpre) as [Hm Hpos].
    rewrite (process_buffer_turn St process _ pre post FS st Hm eq_refl Hpos).
    rewrite (IH _ Hcr). unfold deliver, handed_on, run. simpl.
    destruct (truthy (strip pre)); reflexivity.
Qed.

Lemma run_app (a b : list pystr) (st : St) :
  run process (a ++ b) st = run process b (run process a st).
Proof. unfold run. apply fold_left_app. Qed.

(** The receive loop over reads that all decode to some text, when no
    read leaves a carriage return pending. *)
Lemma receive_loop_pending (chunks : list (list byte)) (buffer : pystr) (st : St) :
  Forall (fun c => decode_utf8_ignore c <> []) chunks ->
  contains FS buffer = false ->
  (forall k, contains CR
               (pending (buffer
                         ++ List.concat (firstn k (map decode_utf8_ignore chunks))))
             = false) ->
  receive_loop process (map RecvData chunks) buffer st
  = (ServerStopped,
     pending (buffer ++ List.concat (map decode_utf8_ignore chunks)),
     run process
         (handed_on
            (hard_frames (buffer ++ List.concat (map decode_utf8_ignore chunks))))
         st).
Proof.
  intros Hne. revert buffer st.
  induction Hne as [ | c rest Hc _ IH]; intros buffer st Hfs Hcr.
  - simpl. rewrite app_nil_r.
    destruct (hard_frames_absent buffer Hfs) as [-> ->]. reflexivity.
  - simpl map. simpl List.concat.
    change (receive_loop process (RecvData c :: map RecvData rest) buffer st)
      with (let data := decode_utf8_ignore c in
            if negb (truthy data) then (EmptyData, buffer, st)
            else let '(buffer', st') := process_buffer process (buffer ++ data) st in
                 receive_loop process (map RecvData rest) buffer' st').
    cbv zeta.
    assert (truthy (decode_utf8_ignore c) = true) as Ht.
    { destruct (decode_utf8_ignore c); [contradiction | reflexivity]. }
    rewrite Ht. simpl negb. cbv iota.
    pose proof (Hcr 1%nat) as H1. simpl in H1. rewrite app_nil_r in H1.
    rewrite (process_buffer_pending _ st H1).
    rewrite IH.
    + rewrite app_assoc.
      destruct (hard_frames_app (buffer ++ decode_utf8_ignore c)
                                (List.concat (map decode_utf8_ignore rest)))
        as [Hf Hp].
      rewrite Hf, Hp, handed_on_app, run_app. reflexivity.
    + apply pending_no_FS.
    + intros k.
      destruct (hard_frames_app (buffer ++ decode_utf8_ignore c)
                                (List.concat (firstn k (map decode_utf8_ignore rest))))
        as [_ Hp].
      rewrite <- Hp. rewrite <- app_assoc.
      exact (Hcr (S k)).
Qed.

Lemma contains_concat_firstn (c : codepoint) (k : nat) (texts : list pystr) :
  contains c (List.concat texts) = false ->
  contains c (List.concat (firstn k texts)) = false.
Proof.
  intros H. rewrite <- (firstn_skipn k texts) in H.
  rewrite concat_app, contains_app in H. apply orb_false_iff in H. tauto.
Qed.

Lemma contains_CR_hard_terminated (msgs : list pystr) :
  Forall (fun m => contains CR m = false) msgs ->
  contains CR (hard_terminated msgs) = false.
Proof.
  induction 1 as [ | m rest Hcr _ IH].
  - reflexivity.
  - unfold hard_terminated. simpl. rewrite !contains_app. fold (hard_terminated rest).
    rewrite Hcr, IH. reflexivity.
Qed.

End FramingInduction.

(** *** Texts that give the same pieces whatever the reads *)

Section SteadyTexts.

Lemma has_end_marker_cons (c : codepoint) (s : pystr) :
  has_end_marker (c :: s) = is_end_marker c || has_end_marker s.
Proof.
  unfold has_end_marker, is_end_marker. rewrite !contains_cons.
  destruct (N.eqb FS c), (N.eqb CR c), (contains FS s), (contains CR s); reflexivity.
Qed.

Lemma has_end_marker_app (a b : pystr) :
  has_end_marker (a ++ b) = has_end_marker a || has_end_marker b.
Proof.
  induction a as [ | c r IH]; simpl app.
  - reflexivity.
  - rewrite !has_end_marker_cons, IH. apply orb_assoc.
Qed.

Lemma cut_at_markers_nonempty (s : pystr) : cut_at_markers s <> [].
Proof.
  destruct s as [ | c r]; simpl.
  - discriminate.
  - destruct (is_end_marker c); [discriminate | ].
    destruct (cut_at_markers r); discriminate.
Qed.

Lemma cut_at_markers_first (pre post : pystr) (t : codepoint) :
  has_end_marker pre = false ->
  is_end_marker t = true ->
  cut_at_markers (pre ++ t :: post) = pre :: cut_at_markers post.
Proof.
  intros Hpre Ht. induction pre as [ | c r IH].
  - simpl. rewrite Ht. reflexivity.
  - rewrite has_end_marker_cons in Hpre. apply orb_false_iff in Hpre.
    destruct Hpre as [Hc Hr]. simpl. rewrite Hc, (IH Hr). reflexivity.
Qed.

Lemma cut_at_markers_absent (s : pystr) :
  has_end_marker s = false -> cut_at_markers s = [s].
Proof.
  induction s as [ | c r IH]; intros H.
  - reflexivity.
  - rewrite has_end_marker_cons in H. apply orb_false_iff in H.
    destruct H as [Hc Hr]. simpl. rewrite Hc, (IH Hr). reflexivity.
Qed.

Lemma pieces_first (pre post : pystr) (t : codepoint) :
  has_end_marker pre = false ->
  is_end_marker t = true ->
  closed_pieces (pre ++ t :: post) = pre :: closed_pieces post
  /\ open_piece (pre ++ t :: post) = open_piece post.
Proof.
  intros Hpre Ht. unfold closed_pieces, open_piece.
  rewrite (cut_at_markers_first pre post t Hpre Ht).
  pose proof (cut_at_markers_nonempty post) as Hne.
  destruct (cut_at_markers post) as [ | x l]; [contradiction | ].
  split; reflexivity.
Qed.

Lemma pieces_absent (s : pystr) :
  has_end_marker s = false -> closed_pieces s = [] /\ open_piece s = s.
Proof.
  intros H. unfold closed_pieces, open_piece.
  rewrite (cut_at_markers_absent s H). split; reflexivity.
Qed.

Lemma first_marker (s : pystr) :
  has_end_marker s = true ->
  exists pre t post,
    s = pre ++ t :: post /\ has_end_marker pre = false /\ is_end_marker t = true.
Proof.
  induction s as [ | c r IH]; intros H.
  - discriminate.
  - rewrite has_end_marker_cons in H. destruct (is_end_marker c) eqn:Hc.
    + exists [], c, r. repeat split. exact Hc.
    + simpl in H. destruct (IH H) as [pre [t [post [Heq [Hpre Ht]]]]].
      exists (c :: pre), t, post. split; [simpl; congruence | ].
      split; [ | exact Ht]. rewrite has_end_marker_cons, Hc. exact Hpre.
Qed.

(** Induction along the end markers of a text. *)
Lemma marker_induction (P : pystr -> Prop) :
  (forall s, has_end_marker s = false -> P s) ->
  (forall pre t post,
      has_end_marker pre = false -> is_end_marker t = true ->
      P post -> P (pre ++ t :: post)) ->
  forall s, P s.
Proof.
  intros Hbase Hstep s.
  remember (List.length s) as n eqn:Hn.
  revert s Hn. induction n as [n IH] using lt_wf_ind. intros s Hn.
  destruct (has_end_marker s) eqn:Hm.
  - destruct (first_marker s Hm) as [pre [t [post [Heq [Hpre Ht]]]]]. subst s.
    apply Hstep; [assumption | assumption | ].
    apply (IH (List.length post)); [ | reflexivity].
    subst n. rewrite length_app. simpl. lia.
  - apply Hbase. assumption.
Qed.

Lemma open_piece_no_marker (s : pystr) : has_end_marker (open_piece s) = false.
Proof.
  induction s as [s H | pre t post Hpre Ht IH] using marker_induction.
  - destruct (pieces_absent s H) as [_ ->]. assumption.
  - destruct (pieces_first pre post t Hpre Ht) as [_ ->]. assumption.
Qed.

(** Appending text to a text and to what is open of it. *)
Lemma pieces_app (a b : pystr) :
  closed_pieces (a ++ b) = closed_pieces a ++ closed_pieces (open_piece a ++ b)
  /\ open_piece (a ++ b) = open_piece (open_piece a ++ b).
Proof.
  induction a as [a H | pre t post Hpre Ht IH] using marker_induction.
  - destruct (pieces_absent a H) as [-> ->]. split; reflexivity.
  - destruct (pieces_first pre post t Hpre Ht) as [-> ->].
    rewrite <- app_assoc. simpl.
    destruct (pieces_first pre (post ++ b) t Hpre Ht) as [-> ->].
    destruct IH as [-> ->]. split; reflexivity.
Qed.

Lemma pieces_terminated (t : codepoint) (msgs : list pystr) (rest : pystr) :
  is_end_marker t = true ->
  Forall (fun m => has_end_marker m = false) msgs ->
  closed_pieces (List.concat (map (fun m => m ++ [t]) msgs) ++ rest)
  = msgs ++ closed_pieces rest
  /\ open_piece (List.concat (map (fun m => m ++ [t]) msgs) ++ rest)
     = open_piece rest.
Proof.
  intros Ht. induction 1 as [ | m more Hm _ IH].
  - split; reflexivity.
  - simpl. repeat rewrite <- app_assoc. simpl.
    destruct (pieces_first m (List.concat (map (fun m => m ++ [t]) more) ++ rest)
                           t Hm Ht) as [-> ->].
    destruct IH as [-> ->]. split; reflexivity.
Qed.

Lemma contains_FS_soft_terminated (msgs : list pystr) :
  Forall (fun m => contains FS m = false) msgs ->
  contains FS (soft_terminated msgs) = false.
Proof.
  induction 1 as [ | m rest Hm _ IH].
  - reflexivity.
  - unfold soft_terminated. simpl. rewrite !contains_app. fold (soft_terminated rest).
    rewrite Hm, IH. reflexivity.
Qed.

Lemma split_on_app_sep (sep : codepoint) (a h : pystr) :
  split_on sep (a ++ sep :: h) = split_on sep a ++ split_on sep h.
Proof.
  induction a as [a H | pre post Hpre IH] using (sep_induction sep).
  - rewrite (split_on_first sep a h H), (split_on_absent sep a H). reflexivity.
  - rewrite <- app_assoc. simpl.
    rewrite (split_on_first sep pre (post ++ sep :: h) Hpre), IH.
    rewrite (split_on_first sep pre post Hpre). reflexivity.
Qed.

(** The pieces of a text up to its first hard terminator. *)
Lemma pieces_hard_first (pre post : pystr) :
  contains FS pre = false ->
  closed_pieces (pre ++ FS :: post) = split_on CR pre ++ closed_pieces post
  /\ open_piece (pre ++ FS :: post) = open_piece post.
Proof.
  induction pre as [pre H | p1 p2 Hp1 IH] using (sep_induction CR); intros Hfs.
  - assert (has_end_marker pre = false) as Hm.
    { unfold has_end_marker. rewrite Hfs, H. reflexivity. }
    destruct (pieces_first pre post FS Hm eq_refl) as [-> ->].
    rewrite (split_on_absent CR pre H). split; reflexivity.
  - rewrite contains_app, contains_cons in Hfs.
    apply orb_false_iff in Hfs. destruct Hfs as [Hf1 Hf2].
    apply orb_false_iff in Hf2. destruct Hf2 as [_ Hf2].
    assert (has_end_marker p1 = false) as Hm.
    { unfold has_end_marker. rewrite Hf1, Hp1. reflexivity. }
    rewrite <- app_assoc. simpl.
    destruct (pieces_first p1 (p2 ++ FS :: post) CR Hm eq_refl) as [-> ->].
    destruct (IH Hf2) as [-> ->].
    rewrite (split_on_first CR p1 p2 Hp1). split; reflexivity.
Qed.

Lemma open_piece_pending (s : pystr) : open_piece (pending s) = open_piece s.
Proof.
  induction s as [s H | pre post Hpre IH] using fs_induction.
  - destruct (hard_frames_absent s H) as [_ ->]. reflexivity.
  - destruct (hard_frames_first pre post Hpre) as [_ ->].
    destruct (pieces_hard_first pre post Hpre) as [_ ->]. exact IH.
Qed.

Lemma pieces_hard_terminated (msgs : list pystr) (rest : pystr) :
  Forall (fun m => contains FS m = false) msgs ->
  closed_pieces (hard_terminated msgs ++ rest)
  = List.concat (map (split_on CR) msgs) ++ closed_pieces rest
  /\ open_piece (hard_terminated msgs ++ rest) = open_piece rest.
Proof.
  induction 1 as [ | m more Hm _ IH].
  - split; reflexivity.
  - unfold hard_terminated. simpl. repeat rewrite <- app_assoc. simpl.
    fold (hard_terminated more).
    destruct (pieces_hard_first m (hard_terminated more ++ rest) Hm) as [-> ->].
    destruct IH as [-> ->]. rewrite <- ?app_assoc. split; reflexivity.
Qed.

Lemma handed_on_cons (x : pystr) (l : list pystr) :
  handed_on (x :: l)
  = (if truthy (strip x) then [strip x] else []) ++ handed_on l.
Proof. unfold handed_on. simpl. destruct (truthy (strip x)); reflexivity. Qed.

(** A text of one segment, cut at its carriage returns, gives what it
    gives as a whole. *)
Lemma one_segment_whole (h : pystr) :
  one_segment h = true -> handed_on (split_on CR h) = handed_on [h].
Proof.
  induction h as [h H | pre post Hpre IH] using (sep_induction CR); intros Hs.
  - rewrite (split_on_absent CR h H). reflexivity.
  - unfold one_segment in Hs, IH.
    rewrite (split_on_first CR pre post Hpre) in Hs.
    rewrite (split_on_first CR pre post Hpre).
    rewrite (handed_on_cons pre (split_on CR post)) in Hs.
    rewrite (handed_on_cons pre (split_on CR post)).
    rewrite (handed_on_cons (pre ++ CR :: post) []).
    destruct (strip pre) as [ | c r] eqn:Hsp.
    + simpl in Hs. simpl app at 1.
      rewrite (IH Hs), handed_on_cons.
      rewrite (strip_app_blank_l pre (CR :: post) (strip_nil_blank pre Hsp)).
      change (CR :: post) with ([CR] ++ post).
      rewrite (strip_app_blank_l [CR] post)
        by (constructor; [reflexivity | constructor]).
      reflexivity.
    + assert (handed_on (split_on CR post) = []) as Hnone.
      { destruct (handed_on (split_on CR post)); [reflexivity | discriminate Hs]. }
      rewrite Hnone in IH. specialize (IH eq_refl).
      assert (strip post = []) as Hpost.
      { rewrite handed_on_cons in IH.
        destruct (strip post); [reflexivity | discriminate IH]. }
      rewrite Hnone.
      rewrite (strip_app_blank_r pre (CR :: post))
        by (constructor; [reflexivity | apply strip_nil_blank; exact Hpost]).
      rewrite Hsp. reflexivity.
Qed.

Lemma one_segment_after_soft (a h : pystr) :
  one_segment (a ++ CR :: h) = true -> one_segment h = true.
Proof.
  unfold one_segment. rewrite split_on_app_sep, handed_on_app, length_app.
  intros H. apply Nat.leb_le in H. apply Nat.leb_le. lia.
Qed.

Lemma steady_prefix (x r : pystr) : steady (x ++ r) -> steady x.
Proof.
  unfold steady. destruct (hard_frames_app x r) as [-> _].
  intros H. apply Forall_app in H. tauto.
Qed.

Lemma steady_pending (x r : pystr) : steady (x ++ r) -> steady (pending x ++ r).
Proof.
  unfold steady. destruct (hard_frames_app x r) as [-> _].
  intros H. apply Forall_app in H. tauto.
Qed.

Lemma steady_after_soft (pre y : pystr) :
  contains FS pre = false -> steady (pre ++ CR :: y) -> steady y.
Proof.
  intros Hpre H. unfold steady in *. destruct (contains FS y) eqn:Hy.
  - destruct (contains_split FS y Hy) as [h [z [-> Hh]]].
    assert (contains FS (pre ++ CR :: h) = false) as Hfs.
    { rewrite contains_app, contains_cons, Hpre, Hh. reflexivity. }
    replace (pre ++ CR :: h ++ FS :: z) with ((pre ++ CR :: h) ++ FS :: z) in H
      by (rewrite <- app_assoc; reflexivity).
    destruct (hard_frames_first (pre ++ CR :: h) z Hfs) as [E _].
    rewrite E in H. clear E.
    destruct (hard_frames_first h z Hh) as [-> _].
    inversion H as [ | ? ? H1 H2]; subst.
    constructor; [ | exact H2]. apply (one_segment_after_soft pre h H1).
  - destruct (hard_frames_absent y Hy) as [-> _]. constructor.
Qed.

Lemma steady_open_piece (p r : pystr) :
  contains FS p = false -> steady (p ++ r) -> steady (open_piece p ++ r).
Proof.
  induction p as [p H | pre post Hpre IH] using (sep_induction CR); intros Hfs Hs.
  - assert (has_end_marker p = false) as Hm.
    { unfold has_end_marker. rewrite Hfs, H. reflexivity. }
    destruct (pieces_absent p Hm) as [_ ->]. exact Hs.
  - rewrite contains_app, contains_cons in Hfs.
    apply orb_false_iff in Hfs. destruct Hfs as [Hf1 Hf2].
    apply orb_false_iff in Hf2. destruct Hf2 as [_ Hf2].
    assert (has_end_marker pre = false) as Hm.
    { unfold has_end_marker. rewrite Hf1, Hpre. reflexivity. }
    destruct (pieces_first pre post CR Hm eq_refl) as [_ ->].
    apply (IH Hf2). apply (steady_after_soft pre (post ++ r) Hf1).
    rewrite <- app_assoc in Hs. exact Hs.
Qed.

Lemma steady_without_hard (s : pystr) : contains FS s = false -> steady s.
Proof.
  intros H. unfold steady. destruct (hard_frames_absent s H) as [-> _]. constructor.
Qed.

Variable St : Type.
Variable process : pystr -> St -> St.

(** On a steady text one run of the inner loop hands on every piece
    that an end marker closes, and keeps the rest. *)
Lemma process_buffer_steady (s : pystr) (st : St) :
  steady s ->
  process_buffer process s st
  = (open_piece s, run process (handed_on (closed_pieces s)) st).
Proof.
  revert st.
  induction s as [s H | buffer pre t post Hm Heq Hpos Hcase IH]
    using frame_induction; intros st Hst.
  - destruct (pieces_absent s H) as [-> ->]. apply process_buffer_idle. exact H.
  - subst buffer.
    rewrite (process_buffer_turn St process _ pre post t st Hm eq_refl Hpos).
    destruct Hcase as [[-> Hfs] | [-> [Hfs Hcr]]].
    + unfold steady in Hst.
      destruct (hard_frames_first pre post Hfs) as [E _]. rewrite E in Hst. clear E.
      inversion Hst as [ | ? ? H1 H2]; subst.
      destruct (pieces_hard_first pre post Hfs) as [-> ->].
      rewrite (IH _ H2), handed_on_app, run_app, (one_segment_whole pre H1).
      unfold deliver. rewrite handed_on_cons.
      destruct (truthy (strip pre)); reflexivity.
    + rewrite contains_app, contains_cons in Hfs.
      apply orb_false_iff in Hfs. destruct Hfs as [Hf1 Hf2].
      apply orb_false_iff in Hf2. destruct Hf2 as [_ Hf2].
      assert (has_end_marker pre = false) as Hpre.
      { unfold has_end_marker. rewrite Hf1, Hcr. reflexivity. }
      destruct (pieces_first pre post CR Hpre eq_refl) as [-> ->].
      rewrite (IH _ (steady_without_hard post Hf2)).
      unfold deliver. rewrite handed_on_cons.
      destruct (truthy (strip pre)); reflexivity.
Qed.

(** The receive loop over reads that all decode to some text, when the
    text received is steady: whatever the division into reads. *)
Lemma receive_loop_steady (chunks : list (list byte)) (buffer : pystr) (st : St) :
  Forall (fun c => decode_utf8_ignore c <> []) chunks ->
  has_end_marker buffer = false ->
  steady (buffer ++ List.concat (map decode_utf8_ignore chunks)) ->
  receive_loop process (map RecvData chunks) buffer st
  = (ServerStopped,
     open_piece (buffer ++ List.concat (map decode_utf8_ignore chunks)),
     run process
         (handed_on
            (closed_pieces (buffer ++ List.concat (map decode_utf8_ignore chunks))))
         st).
Proof.
  intros Hne. revert buffer st.
  induction Hne as [ | c rest Hc _ IH]; intros buffer st Hbuf Hst.
  - simpl. rewrite app_nil_r.
    destruct (pieces_absent buffer Hbuf) as [-> ->]. reflexivity.
  - simpl map in *. simpl List.concat in *.
    change (receive_loop process (RecvData c :: map RecvData rest) buffer st)
      with (let data := decode_utf8_ignore c in
            if negb (truthy data) then (EmptyData, buffer, st)
            else let '(buffer', st') := process_buffer process (buffer ++ data) st in
                 receive_loop process (map RecvData rest) buffer' st').
    cbv zeta.
    assert (truthy (decode_utf8_ignore c) = true) as Ht.
    { destruct (decode_utf8_ignore c); [contradiction | reflexivity]. }
    rewrite Ht. simpl negb. cbv iota.
    rewrite app_assoc in Hst.
    rewrite (process_buffer_steady _ st (steady_prefix _ _ Hst)).
    rewrite IH.
    + rewrite app_assoc.
      destruct (pieces_app (buffer ++ decode_utf8_ignore c)
                           (List.concat (map decode_utf8_ignore rest)))
        as [Hf Hp].
      rewrite Hf, Hp, handed_on_app, run_app. reflexivity.
    + apply open_piece_no_marker.
    + rewrite <- open_piece_pending. apply steady_open_piece.
      * apply pending_no_FS.
      * apply steady_pending. exact Hst.
Qed.

End SteadyTexts.

(* ------------------------------------------------------------------ *)
(** ** Frame splitter: boundary and completeness *)
(* ------------------------------------------------------------------ *)

(** C2, as stated, fails: in the buffer [A\rB\x1c] the carriage return
    comes first, yet the boundary the code takes is the hard terminator
    at index 3, and the extracted message is [A\rB]. *)
Lemma cr_before_fs_is_not_the_boundary :
  let buffer := lit "A" ++ [CR] ++ lit "B" ++ [FS] in
  find CR buffer = 1%Z
  /\ find FS buffer = 3%Z
  /\ end_position buffer <> find CR buffer
  /\ end_position buffer = 3%Z
  /\ split_buffer buffer = ([lit "A" ++ [CR] ++ lit "B"], []).
Proof.
  vm_compute. repeat split; try reflexivity. discriminate.
Qed.

(** C2 (amended): for every buffer containing an end marker, the boundary
    is the first hard terminator 0x1C when the buffer contains one, and
    the first carriage return only when it contains none; the text
    before the boundary, trimmed, is the message, and the text after it
    is the new buffer. *)
Theorem hard_terminator_takes_precedence (buffer : pystr) :
  has_end_marker buffer = true ->
  exists pre t post,
    buffer = pre ++ t :: post
    /\ (if contains FS buffer
        then t = FS /\ contains FS pre = false
        else t = CR /\ contains CR pre = false)
    /\ end_position buffer = Z.of_nat (List.length pre)
    /\ slice_to buffer (end_position buffer) = pre
    /\ slice_from buffer (end_position buffer + 1) = post
    /\ forall (St : Type) (process : pystr -> St -> St) (st : St),
        process_buffer process buffer st
        = process_buffer process post
            (if truthy (strip pre) then process (strip pre) st else st).
Proof.
  intros Hm.
  destruct (end_marker_split buffer Hm) as [pre [t [post [Heq [Hpos Hcase]]]]].
  exists pre, t, post. split; [assumption | ]. split.
  - destruct Hcase as [[Ht Hpre] | [Ht [Hfs Hpre]]].
    + assert (contains FS buffer = true) as E.
      { subst. rewrite contains_app, contains_cons. simpl. apply orb_true_r. }
      rewrite E. split; assumption.
    + rewrite Hfs. split; assumption.
  - split; [assumption | ]. rewrite Hpos. split; [ | split].
    + subst buffer. apply slice_to_prefix.
    + subst buffer. apply slice_from_suffix.
    + intros St process st.
      apply (process_buffer_turn St process buffer pre post t st Hm Heq Hpos).
Qed.

Lemma hard_terminator_takes_precedence_witness :
  exists pre t post,
    lit "A" ++ [CR] ++ lit "B" ++ [FS] = pre ++ t :: post
    /\ (if contains FS (lit "A" ++ [CR] ++ lit "B" ++ [FS])
        then t = FS /\ contains FS pre = false
        else t = CR /\ contains CR pre = false)
    /\ end_position (lit "A" ++ [CR] ++ lit "B" ++ [FS])
       = Z.of_nat (List.length pre)
    /\ slice_to (lit "A" ++ [CR] ++ lit "B" ++ [FS])
                (end_position (lit "A" ++ [CR] ++ lit "B" ++ [FS])) = pre
    /\ slice_from (lit "A" ++ [CR] ++ lit "B" ++ [FS])
                  (end_position (lit "A" ++ [CR] ++ lit "B" ++ [FS]) + 1) = post
    /\ forall (St : Type) (process : pystr -> St -> St) (st : St),
        process_buffer process (lit "A" ++ [CR] ++ lit "B" ++ [FS]) st
        = process_buffer process post
            (if truthy (strip pre) then process (strip pre) st else st).
Proof.
  apply (hard_terminator_takes_precedence (lit "A" ++ [CR] ++ lit "B" ++ [FS])).
  reflexivity.
Defined.

Lemma fold_collect (msgs acc : list pystr) :
  run collect msgs acc = acc ++ msgs.
Proof.
  unfold run. revert acc. induction msgs as [ | m rest IH]; intros acc; simpl.
  - symmetry. apply app_nil_r.
  - rewrite IH. unfold collect. rewrite <- app_assoc. reflexivity.
Qed.

(** C6, as stated, fails: the same bytes, one message of two segments
    closed by the hard terminator, give one message when they arrive in
    one read and two messages when the read boundary falls after the
    carriage return. *)
Lemma chunking_changes_the_frames :
  let whole := ascii_bytes (lit "MSH|1" ++ [CR] ++ lit "PID|2" ++ [FS]) in
  let part1 := ascii_bytes (lit "MSH|1" ++ [CR]) in
  let part2 := ascii_bytes (lit "PID|2" ++ [FS]) in
  part1 ++ part2 = whole
  /\ frames_of [RecvData whole] = [lit "MSH|1" ++ [CR] ++ lit "PID|2"]
  /\ frames_of [RecvData part1; RecvData part2] = [lit "MSH|1"; lit "PID|2"]
  /\ List.length (frames_of [RecvData whole])
     <> List.length (frames_of [RecvData part1; RecvData part2]).
Proof.
  vm_compute. repeat split; try reflexivity. discriminate.
Qed.

(** Messages closed by the hard terminator, carriage returns inside them
    allowed: the receive loop hands on exactly these messages, trimmed,
    when no read leaves a carriage return pending after the last hard
    terminator received. *)
Lemma receive_loop_hard_terminated
      (msgs : list pystr) (chunks : list (list byte)) :
  Forall well_formed msgs ->
  Forall (fun c => decode_utf8_ignore c <> []) chunks ->
  List.concat (map decode_utf8_ignore chunks) = hard_terminated msgs ->
  (forall k, contains CR
               (pending (List.concat (firstn k (map decode_utf8_ignore chunks))))
             = false) ->
  forall (St : Type) (process : pystr -> St -> St) (st : St),
    receive_loop process (map RecvData chunks) [] st
    = (ServerStopped, [], run process (map strip msgs) st).
Proof.
  intros Hwf Hne Hcat Hpend St process st.
  assert (Forall (fun m => contains FS m = false) msgs) as Hfs.
  { eapply Forall_impl; [ | exact Hwf]. intros m [H _]. exact H. }
  rewrite (receive_loop_pending St process chunks [] st Hne eq_refl Hpend).
  simpl app. rewrite Hcat.
  destruct (hard_frames_hard_terminated msgs Hfs) as [-> ->].
  rewrite (handed_on_well_formed msgs Hwf). reflexivity.
Qed.

(** Messages of one segment closed by the hard terminator, followed by
    messages without carriage return closed by a carriage return: the
    receive loop hands on exactly these messages, trimmed, whatever the
    division into reads. *)
Lemma receive_loop_terminated
      (msgs1 msgs2 : list pystr) (chunks : list (list byte)) :
  Forall well_formed (msgs1 ++ msgs2) ->
  Forall (fun m => one_segment m = true) msgs1 ->
  Forall (fun m => contains CR m = false) msgs2 ->
  Forall (fun c => decode_utf8_ignore c <> []) chunks ->
  List.concat (map decode_utf8_ignore chunks)
  = hard_terminated msgs1 ++ soft_terminated msgs2 ->
  forall (St : Type) (process : pystr -> St -> St) (st : St),
    receive_loop process (map RecvData chunks) [] st
    = (ServerStopped, [], run process (map strip (msgs1 ++ msgs2)) st).
Proof.
  intros Hwf Hone Hcr Hne Hcat St process st.
  assert (Forall (fun m => contains FS m = false) (msgs1 ++ msgs2)) as Hfs.
  { eapply Forall_impl; [ | exact Hwf]. intros m [H _]. exact H. }
  apply Forall_app in Hfs. destruct Hfs as [Hfs1 Hfs2].
  apply Forall_app in Hwf. destruct Hwf as [Hwf1 Hwf2].
  assert (Forall (fun m => has_end_marker m = false) msgs2) as Hfree.
  { apply Forall_forall. intros m Hm. unfold has_end_marker.
    rewrite (proj1 (Forall_forall _ _) Hfs2 m Hm).
    rewrite (proj1 (Forall_forall _ _) Hcr m Hm). reflexivity. }
  assert (handed_on (List.concat (map (split_on CR) msgs1)) = map strip msgs1)
    as Hhand.
  { clear Hcat Hfs1. induction Hwf1 as [ | m more [_ Hm] _ IH]; [reflexivity | ].
    inversion Hone as [ | ? ? H1 H2]; subst.
    simpl. rewrite handed_on_app, (IH H2), (one_segment_whole m H1).
    rewrite handed_on_cons. destruct (strip m); [contradiction | reflexivity]. }
  rewrite (receive_loop_steady St process chunks [] st Hne eq_refl).
  - simpl app. rewrite Hcat.
    destruct (pieces_hard_terminated msgs1 (soft_terminated msgs2) Hfs1)
      as [H1 H2].
    rewrite H1, H2.
    destruct (pieces_terminated CR msgs2 [] eq_refl Hfree) as [H3 H4].
    fold (soft_terminated msgs2) in H3, H4. rewrite app_nil_r in H3, H4.
    rewrite H3, H4. change (closed_pieces []) with (@nil pystr).
    rewrite app_nil_r, handed_on_app, Hhand, (handed_on_well_formed _ Hwf2), map_app.
    reflexivity.
  - simpl app. rewrite Hcat. unfold steady.
    destruct (hard_frames_app (hard_terminated msgs1) (soft_terminated msgs2))
      as [-> _].
    destruct (hard_frames_hard_terminated msgs1 Hfs1) as [-> ->].
    simpl app at 2.
    destruct (hard_frames_absent _ (contains_FS_soft_terminated msgs2 Hfs2))
      as [-> _].
    rewrite app_nil_r. exact Hone.
Qed.

(** C6 (amended): for a stream of N messages, each free of the hard
    terminator and not blank, each followed by a terminator, the hard
    terminator 0x1C after the first messages and the carriage return
    after the remaining ones, which contain none (either part may be
    empty), and for every division of the stream into reads such that
    each read decodes to a non-empty text and the decoded reads together
    are the text of the stream, the receive loop hands exactly the N
    messages, trimmed, to the message processing, in order, in two
    cases: when every message has one segment (no carriage return, or
    carriage returns that only set off blank text, as in a segment
    closed by a carriage return), whatever the division into reads; and
    when every message is closed by the hard terminator and no read
    leaves a carriage return pending after the last hard terminator
    received. *)
Theorem frames_of_terminated_stream
        (msgs1 msgs2 : list pystr) (chunks : list (list byte)) :
  Forall well_formed (msgs1 ++ msgs2) ->
  Forall (fun m => contains CR m = false) msgs2 ->
  Forall (fun c => decode_utf8_ignore c <> []) chunks ->
  List.concat (map decode_utf8_ignore chunks)
  = hard_terminated msgs1 ++ soft_terminated msgs2 ->
  (Forall (fun m => one_segment m = true) msgs1
   \/ (msgs2 = []
       /\ forall k, contains CR
                      (pending (List.concat
                                  (firstn k (map decode_utf8_ignore chunks))))
                    = false)) ->
  frames_of (map RecvData chunks) = map strip (msgs1 ++ msgs2)
  /\ forall (St : Type) (process : pystr -> St -> St) (st : St),
      receive_loop process (map RecvData chunks) [] st
      = (ServerStopped, [], run process (map strip (msgs1 ++ msgs2)) st).
Proof.
  intros Hwf Hcr Hne Hcat Hcase.
  assert (forall (St : Type) (process : pystr -> St -> St) (st : St),
             receive_loop process (map RecvData chunks) [] st
             = (ServerStopped, [], run process (map strip (msgs1 ++ msgs2)) st))
    as Hgen.
  { destruct Hcase as [Hone | [-> Hpend]].
    - apply receive_loop_terminated; assumption.
    - change (soft_terminated []) with (@nil codepoint) in Hcat.
      rewrite app_nil_r in Hcat, Hwf. rewrite app_nil_r.
      apply receive_loop_hard_terminated; assumption. }
  split; [ | exact Hgen ].
  unfold frames_of. rewrite Hgen. simpl. apply fold_collect.
Qed.

(** Two messages closed by the hard terminator, the first a segment
    with its carriage return, and two closed by a carriage return, in
    four reads that cut through them; and a message of two segments
    closed by the hard terminator, in two reads. *)
Lemma frames_of_terminated_stream_witness :
  frames_of (map RecvData
                 [ascii_bytes (lit "MSH|1" ++ [CR]);
                  ascii_bytes ([FS] ++ lit " MS");
                  ascii_bytes (lit "H|2 " ++ [FS] ++ lit "A" ++ [CR] ++ lit " B");
                  ascii_bytes (lit "C " ++ [CR])])
  = map strip ([lit "MSH|1" ++ [CR]; lit " MSH|2 "] ++ [lit "A"; lit " BC "])
  /\ frames_of (map RecvData
                    [ascii_bytes (lit "MSH|1" ++ [CR] ++ lit "PID|2" ++ [CR; FS]
                                      ++ lit "A");
                     ascii_bytes (lit "B" ++ [FS])])
     = map strip ([lit "MSH|1" ++ [CR] ++ lit "PID|2" ++ [CR]; lit "AB"] ++ []).
Proof.
  split.
  - apply (frames_of_terminated_stream
             [lit "MSH|1" ++ [CR]; lit " MSH|2 "] [lit "A"; lit " BC "]
             [ascii_bytes (lit "MSH|1" ++ [CR]);
              ascii_bytes ([FS] ++ lit " MS");
              ascii_bytes (lit "H|2 " ++ [FS] ++ lit "A" ++ [CR] ++ lit " B");
              ascii_bytes (lit "C " ++ [CR])]).
    + repeat constructor; try discriminate; reflexivity.
    + repeat constructor.
    + repeat constructor; discriminate.
    + reflexivity.
    + left. repeat constructor.
  - apply (frames_of_terminated_stream
             [lit "MSH|1" ++ [CR] ++ lit "PID|2" ++ [CR]; lit "AB"] []
             [ascii_bytes (lit "MSH|1" ++ [CR] ++ lit "PID|2" ++ [CR; FS] ++ lit "A");
              ascii_bytes (lit "B" ++ [FS])]).
    + repeat constructor; try discriminate; reflexivity.
    + constructor.
    + repeat constructor; discriminate.
    + reflexivity.
    + right. split; [reflexivity | ].
      intros k. destruct k as [ | [ | [ | k]]]; reflexivity.
Defined.

Example frames_of_four_reads :
  frames_of (map RecvData
                 [ascii_bytes (lit "MSH|1" ++ [CR]);
                  ascii_bytes ([FS] ++ lit " MS");
                  ascii_bytes (lit "H|2 " ++ [FS] ++ lit "A" ++ [CR] ++ lit " B");
                  ascii_bytes (lit "C " ++ [CR])])
  = [lit "MSH|1"; lit "MSH|2"; lit "A"; lit "BC"].
Proof. vm_compute. reflexivity. Qed.

Example frames_of_two_reads :
  frames_of (map RecvData
                 [ascii_bytes (lit "MSH|1" ++ [CR] ++ lit "PID|2" ++ [CR; FS]
                                   ++ lit "A");
                  ascii_bytes (lit "B" ++ [FS])])
  = [lit "MSH|1" ++ [CR] ++ lit "PID|2"; lit "AB"].
Proof. vm_compute. reflexivity. Qed.

(* ------------------------------------------------------------------ *)
(** ** Acknowledgment builders *)
(* ------------------------------------------------------------------ *)





Example create_nak_abc123 :
  create_nak (lit "ABC123") (lit "boom") (Demo.second_clock 0)
  = lit "MSH|^~\&|HL7_SERVER||||20240101120000||ACK|ABC123_NAK|P|2.3.1" ++ [CR]
      ++ lit "MSA|AE|ABC123|boom" ++ [CR] ++ [FS].
Proof. vm_compute. reflexivity. Qed.

Lemma create_ack_ok (original_msh : list pystr) (now : datetime) :
  (10 < List.length original_msh)%nat ->
  create_ack original_msh now
  = Ok (((ack_header (nth 3 original_msh []) (nth 4 original_msh [])
                     (strftime_compact now) (nth 10 original_msh []) ++ [CR])
           ++ ack_msa (nth 10 original_msh []) ++ [CR]) ++ [FS]).
Proof.
  intros Hlen. unfold create_ack, getitem, field_or_unknown.
  destruct (Nat.ltb_spec 10 (List.length original_msh)); [ | lia].
  rewrite (nth_error_nth' original_msh [] (n := 3)) by lia.
  rewrite (nth_error_nth' original_msh [] (n := 4)) by lia.
  reflexivity.
Qed.

(** C8: for every header segment that carries a control id (more than ten
    fields), [create_ack] gives a header segment whose control id field
    is the original control id followed by [_ACK], and an MSA segment
    carrying [AA] and the original control id, each closed by a carriage
    return, followed by the hard terminator 0x1C. *)
Theorem create_ack_shape (original_msh : list pystr) (now : datetime) :
  (10 < List.length original_msh)%nat ->
  let control_id := nth 10 original_msh [] in
  exists reply,
    create_ack original_msh now = Ok reply
    /\ reply
       = (lit "MSH|^~\&|HL7_SERVER||" ++ nth 3 original_msh [] ++ lit "|"
            ++ nth 4 original_msh [] ++ lit "|" ++ strftime_compact now
            ++ lit "||ACK|" ++ control_id ++ lit "_ACK|P|2.3.1") ++ [CR]
         ++ (lit "MSA|AA|" ++ control_id ++ lit "|Message accepted") ++ [CR]
         ++ [FS]
    /\ last reply 0%N = FS.
Proof.
  intros Hlen control_id.
  rewrite (create_ack_ok original_msh now Hlen). fold control_id.
  eexists. split; [reflexivity | ]. split.
  - unfold ack_header, ack_msa. rewrite <- !app_assoc. reflexivity.
  - apply last_last.
Qed.

Lemma create_ack_shape_witness :
  exists reply,
    create_ack [lit "MSH"; lit "|"; lit "^~\&"; lit "DEV"; []; lit "HOSP"; [];
                lit "20240101120000"; []; lit "ORU^W01"; lit "ABC123"; lit "P";
                lit "2.3.1"] (Demo.second_clock 5) = Ok reply
    /\ reply
       = lit "MSH|^~\&|HL7_SERVER||DEV||20240101120005||ACK|ABC123_ACK|P|2.3.1"
         ++ [CR] ++ lit "MSA|AA|ABC123|Message accepted" ++ [CR] ++ [FS]
    /\ last reply 0%N = FS.
Proof.
  apply (create_ack_shape
           [lit "MSH"; lit "|"; lit "^~\&"; lit "DEV"; []; lit "HOSP"; [];
            lit "20240101120000"; []; lit "ORU^W01"; lit "ABC123"; lit "P";
            lit "2.3.1"] (Demo.second_clock 5)).
  simpl. lia.
Defined.

(* ------------------------------------------------------------------ *)
(** ** Message store: listing, order, deletion *)
(* ------------------------------------------------------------------ *)

Section StoreFacts.

Lemma pystr_eqb_eq (a b : pystr) : pystr_eqb a b = true <-> a = b.
Proof.
  unfold pystr_eqb. destruct (pystr_eq_dec a b); split; congruence.
Qed.

Lemma pystr_eqb_neq (a b : pystr) : pystr_eqb a b = false <-> a <> b.
Proof.
  unfold pystr_eqb. destruct (pystr_eq_dec a b); split; congruence.
Qed.

Lemma filter_all (A : Type) (p : A -> bool) (l : list A) :
  (forall x, In x l -> p x = true) -> filter p l = l.
Proof.
  induction l as [ | x r IH]; intros H; simpl.
  - reflexivity.
  - rewrite (H x (or_introl eq_refl)). f_equal. apply IH.
    intros y Hy. apply H. right. assumption.
Qed.

(** *** Sorting by modification time *)

Lemma insert_by_mtime_perm (x : Z * file) (l : list (Z * file)) :
  Permutation (insert_by_mtime x l) (x :: l).
Proof.
  induction l as [ | y r IH]; simpl.
  - apply Permutation_refl.
  - destruct (fst x <=? fst y)%Z.
    + apply Permutation_refl.
    + eapply Permutation_trans; [apply perm_skip, IH | apply perm_swap].
Qed.

Lemma sort_by_mtime_perm (l : list (Z * file)) :
  Permutation (sort_by_mtime l) l.
Proof.
  induction l as [ | x r IH]; simpl.
  - constructor.
  - eapply Permutation_trans; [apply insert_by_mtime_perm | ].
    apply perm_skip. assumption.
Qed.

Lemma insert_by_mtime_sorted (x : Z * file) (l : list (Z * file)) :
  StronglySorted older l -> StronglySorted older (insert_by_mtime x l).
Proof.
  induction 1 as [ | y r Hs IH Hall]; simpl.
  - constructor; constructor.
  - destruct (Z.leb_spec (fst x) (fst y)) as [Hle | Hgt].
    + constructor.
      * constructor; assumption.
      * constructor; [exact Hle | ].
        eapply Forall_impl; [ | exact Hall].
        intros z Hz. unfold older in *. lia.
    + constructor; [assumption | ].
      apply (Permutation_Forall (Permutation_sym (insert_by_mtime_perm x r))).
      constructor; [unfold older; lia | assumption].
Qed.

Lemma sort_by_mtime_sorted (l : list (Z * file)) :
  StronglySorted older (sort_by_mtime l).
Proof.
  induction l as [ | x r IH]; simpl.
  - constructor.
  - apply insert_by_mtime_sorted. assumption.
Qed.

Lemma sorted_app_older (l1 l2 : list (Z * file)) :
  StronglySorted older (l1 ++ l2) ->
  forall a b, In a l1 -> In b l2 -> older a b.
Proof.
  induction l1 as [ | x r IH]; simpl; intros Hs a b Ha Hb.
  - contradiction.
  - inversion Hs as [ | ? ? Hr Hall]; subst.
    destruct Ha as [-> | Ha].
    + rewrite Forall_forall in Hall. apply Hall. apply in_or_app. right. assumption.
    + apply IH; assumption.
Qed.

(** *** The listing *)

Variable env : environment.

Lemma stat_files_listed (dir : list file) :
  stat_files env dir = map (fun f => (f_mtime f, f)) (listed env dir).
Proof.
  induction dir as [ | f r IH]; simpl.
  - reflexivity.
  - unfold listed in *. simpl. destruct (stat_ok env (f_name f)); simpl; rewrite IH; reflexivity.
Qed.

Lemma sorted_files_snd (dir : list file) :
  Permutation (map snd (sort_by_mtime (stat_files env dir))) (listed env dir).
Proof.
  eapply Permutation_trans.
  - apply Permutation_map. apply sort_by_mtime_perm.
  - rewrite stat_files_listed, map_map. simpl. rewrite map_id. apply Permutation_refl.
Qed.

Lemma sorted_files_tagged (dir : list file) (p : Z * file) :
  In p (sort_by_mtime (stat_files env dir)) -> fst p = f_mtime (snd p).
Proof.
  intros Hin.
  apply (Permutation_in _ (sort_by_mtime_perm _)) in Hin.
  rewrite stat_files_listed in Hin. apply in_map_iff in Hin.
  destruct Hin as [f [<- _]]. reflexivity.
Qed.

End StoreFacts.

Section DeletionFacts.

Lemma NoDup_map_filter (A B : Type) (g : A -> B) (p : A -> bool) (l : list A) :
  NoDup (map g l) -> NoDup (map g (filter p l)).
Proof.
  induction l as [ | x r IH]; simpl; intros H.
  - constructor.
  - inversion H as [ | ? ? Hx Hr]; subst. destruct (p x); simpl.
    + constructor; [ | apply IH; assumption].
      intros Hin. apply Hx. apply in_map_iff in Hin.
      destruct Hin as [y [Hy Hin]]. apply filter_In in Hin.
      apply in_map_iff. exists y. tauto.
    + apply IH. assumption.
Qed.

Lemma NoDup_app_apart (A : Type) (l1 l2 : list A) (x : A) :
  NoDup (l1 ++ l2) -> In x l1 -> ~ In x l2.
Proof.
  induction l1 as [ | y r IH]; simpl; intros H Hin Hin2.
  - contradiction.
  - inversion H as [ | ? ? Hy Hr]; subst. destruct Hin as [-> | Hin].
    + apply Hy. apply in_or_app. right. assumption.
    + apply (IH Hr Hin Hin2).
Qed.

(** In a directory, a name stands for one entry. *)
Lemma same_name_same_file (dir : list file) (f g : file) :
  NoDup (map f_name dir) -> In f dir -> In g dir -> f_name f = f_name g -> f = g.
Proof.
  induction dir as [ | h r IH]; simpl; intros Hnd Hf Hg Heq.
  - contradiction.
  - inversion Hnd as [ | ? ? Hh Hr]; subst.
    destruct Hf as [-> | Hf], Hg as [-> | Hg].
    + reflexivity.
    + exfalso. apply Hh. rewrite Heq. apply in_map. assumption.
    + exfalso. apply Hh. rewrite <- Heq. apply in_map. assumption.
    + apply IH; assumption.
Qed.

Lemma in_unlink (f : file) (name : pystr) (dir : list file) :
  In f (unlink name dir) <-> In f dir /\ f_name f <> name.
Proof.
  unfold unlink. rewrite filter_In. rewrite negb_true_iff, pystr_eqb_neq. tauto.
Qed.

Lemma unlink_absent (name : pystr) (dir : list file) :
  ~ In name (map f_name dir) -> unlink name dir = dir.
Proof.
  intros H. apply filter_all. intros f Hf.
  apply negb_true_iff, pystr_eqb_neq. intros E. apply H. rewrite <- E.
  apply in_map. assumption.
Qed.

Lemma unlink_length (v : file) (dir : list file) :
  NoDup (map f_name dir) -> In v dir ->
  (List.length (unlink (f_name v) dir) + 1 = List.length dir)%nat.
Proof.
  induction dir as [ | f r IH]; simpl; intros Hnd Hin.
  - contradiction.
  - inversion Hnd as [ | ? ? Hf Hr]; subst.
    destruct (pystr_eqb (f_name f) (f_name v)) eqn:E; simpl.
    + apply pystr_eqb_eq in E. fold (unlink (f_name v) r).
      rewrite unlink_absent by (rewrite <- E; assumption). lia.
    + apply pystr_eqb_neq in E. destruct Hin as [-> | Hin]; [congruence | ].
      fold (unlink (f_name v) r). rewrite <- (IH Hr Hin). lia.
Qed.

Lemma in_unlink_all (f : file) (victims dir : list file) :
  In f (unlink_all victims dir)
  <-> In f dir /\ ~ In (f_name f) (map f_name victims).
Proof.
  revert dir. induction victims as [ | v r IH]; intros dir; simpl.
  - tauto.
  - unfold unlink_all in *. simpl. rewrite IH, in_unlink. intuition congruence.
Qed.

Lemma unlink_all_length (victims dir : list file) :
  NoDup (map f_name dir) -> NoDup (map f_name victims) -> incl victims dir ->
  (List.length (unlink_all victims dir) + List.length victims
   = List.length dir)%nat.
Proof.
  revert dir. induction victims as [ | v r IH]; intros dir Hnd Hv Hincl; simpl.
  - lia.
  - inversion Hv as [ | ? ? Hvn Hr]; subst.
    unfold unlink_all in *. simpl.
    assert (In v dir) as Hin by (apply Hincl; left; reflexivity).
    pose proof (unlink_length v dir Hnd Hin) as Hlen.
    rewrite <- Hlen. rewrite <- (IH (unlink (f_name v) dir)).
    + lia.
    + apply NoDup_map_filter. assumption.
    + assumption.
    + intros s Hs. apply in_unlink. split.
      * apply Hincl. right. assumption.
      * intros E. apply Hvn. rewrite <- E. apply in_map. assumption.
Qed.

Variable env : environment.

(** The run of the deletion loop: each victim whose [unlink()] succeeds
    leaves the directory and is counted; for each other a warning is
    logged, and the loop goes on. *)
Lemma remove_loop_run (victims : list (Z * file)) (dir : list file)
      (log : list logentry) (n : nat) :
  remove_loop env victims dir log n
  = (unlink_all (filter (deletable env) (map snd victims)) dir,
     log ++ warnings env (map snd victims),
     (n + List.length (filter (deletable env) (map snd victims)))%nat).
Proof.
  revert dir log n. induction victims as [ | [m f] rest IH]; intros dir log n.
  - simpl. rewrite app_nil_r, Nat.add_0_r. reflexivity.
  - change (remove_loop env ((m, f) :: rest) dir log n)
      with (match unlink_error env (f_name f) with
            | None => remove_loop env rest (unlink (f_name f) dir) log (S n)
            | Some e => remove_loop env rest dir
                                    (log ++ [LogCouldNotRemove (f_name f) e]) n
            end).
    change (map snd ((m, f) :: rest)) with (f :: map snd rest).
    change (warnings env (f :: map snd rest))
      with (match unlink_error env (f_name f) with
            | Some e => [LogCouldNotRemove (f_name f) e]
            | None => []
            end ++ warnings env (map snd rest)).
    change (filter (deletable env) (f :: map snd rest))
      with (if deletable env f
            then f :: filter (deletable env) (map snd rest)
            else filter (deletable env) (map snd rest)).
    assert (deletable env f
            = match unlink_error env (f_name f) with
              | None => true
              | Some _ => false
              end) as Hd by reflexivity.
    rewrite Hd. clear Hd.
    destruct (unlink_error env (f_name f)) as [e | ].
    + rewrite IH. rewrite <- app_assoc. reflexivity.
    + rewrite IH. simpl. f_equal. lia.
Qed.

End DeletionFacts.

Section CleanupFacts.

Lemma in_firstn (A : Type) (n : nat) (l : list A) (x : A) :
  In x (firstn n l) -> In x l.
Proof.
  intros H. rewrite <- (firstn_skipn n l). apply in_or_app. left. assumption.
Qed.

Lemma in_skipn (A : Type) (n : nat) (l : list A) (x : A) :
  In x (skipn n l) -> In x l.
Proof.
  intros H. rewrite <- (firstn_skipn n l). apply in_or_app. right. assumption.
Qed.

Variable env : environment.

Lemma cleanup_old_files_dir (w : world) :
  w_dir (cleanup_old_files env w)
  = unlink_all (filter (deletable env) (victims env (w_dir w))) (w_dir w).
Proof.
  unfold cleanup_old_files, victims, sorted_files.
  set (files := sort_by_mtime (stat_files env (w_dir w))).
  destruct (Nat.ltb_spec 0 (List.length files / 2)) as [Hk | Hk].
  - rewrite remove_loop_run. reflexivity.
  - replace (List.length files / 2)%nat with 0%nat by lia. reflexivity.
Qed.

Lemma cleanup_old_files_log (w : world) :
  w_log (cleanup_old_files env w)
  = w_log w ++ warnings env (victims env (w_dir w))
      ++ (if (0 <? List.length (filter (deletable env) (victims env (w_dir w))))%nat
          then [LogBatchCleanup
                  (List.length (filter (deletable env) (victims env (w_dir w))))
                  (List.length (sorted_files env (w_dir w))
                   - List.length (filter (deletable env) (victims env (w_dir w))))]
          else []).
Proof.
  unfold cleanup_old_files, victims, sorted_files.
  set (files := sort_by_mtime (stat_files env (w_dir w))).
  destruct (Nat.ltb_spec 0 (List.length files / 2)) as [Hk | Hk].
  - rewrite remove_loop_run. cbn [Nat.add]. cbv beta iota zeta.
    match goal with
    | |- context [(0 <? ?r)%nat] => destruct (0 <? r)%nat
    end; unfold set_log; cbn [w_log].
    + rewrite <- app_assoc. reflexivity.
    + rewrite app_nil_r. reflexivity.
  - replace (List.length files / 2)%nat with 0%nat by lia.
    cbn [firstn map filter List.length Nat.ltb Nat.leb warnings flat_map].
    rewrite !app_nil_r. reflexivity.
Qed.

Lemma cleanup_old_files_rest (w : world) :
  w_ticks (cleanup_old_files env w) = w_ticks w
  /\ w_sends (cleanup_old_files env w) = w_sends w
  /\ w_wire (cleanup_old_files env w) = w_wire w.
Proof.
  unfold cleanup_old_files.
  destruct (0 <? _)%nat; [ | repeat split].
  destruct (remove_loop env _ _ _ _) as [[dir log] removed]. repeat split.
Qed.

Lemma victims_spared (dir : list file) :
  Permutation (listed env dir) (victims env dir ++ spared env dir).
Proof.
  unfold victims, spared. rewrite <- map_app, firstn_skipn.
  apply Permutation_sym. apply sorted_files_snd.
Qed.

Lemma victims_length (dir : list file) :
  List.length (victims env dir) = (List.length (listed env dir) / 2)%nat.
Proof.
  unfold victims. rewrite length_map, length_firstn.
  assert (List.length (sorted_files env dir) = List.length (listed env dir)) as E.
  { rewrite <- (Permutation_length (sorted_files_snd env dir)).
    unfold sorted_files. rewrite length_map. reflexivity. }
  rewrite E.
  pose proof (Nat.Div0.div_le_upper_bound (List.length (listed env dir)) 2
                                          (List.length (listed env dir))).
  assert (List.length (listed env dir) / 2 <= List.length (listed env dir))%nat
    by (apply Nat.Div0.div_le_upper_bound; lia).
  lia.
Qed.

Lemma victims_older (dir : list file) (v o : file) :
  In v (victims env dir) -> In o (spared env dir) -> (f_mtime v <= f_mtime o)%Z.
Proof.
  unfold victims, spared. intros Hv Ho.
  apply in_map_iff in Hv. destruct Hv as [pv [<- Hv]].
  apply in_map_iff in Ho. destruct Ho as [po [<- Ho]].
  pose proof (sort_by_mtime_sorted (stat_files env dir)) as Hs.
  fold (sorted_files env dir) in Hs.
  rewrite <- (firstn_skipn (List.length (sorted_files env dir) / 2)
                           (sorted_files env dir)) in Hs.
  pose proof (sorted_app_older _ _ Hs pv po Hv Ho) as Hle. unfold older in Hle.
  rewrite <- (sorted_files_tagged env dir pv)
    by (eapply in_firstn; exact Hv).
  rewrite <- (sorted_files_tagged env dir po)
    by (eapply in_skipn; exact Ho).
  assumption.
Qed.

Lemma listed_incl (dir : list file) : incl (listed env dir) dir.
Proof. intros f Hf. apply filter_In in Hf. tauto. Qed.

Lemma victims_incl (dir : list file) : incl (victims env dir) dir.
Proof.
  intros f Hf. apply listed_incl.
  apply (Permutation_in _ (Permutation_sym (victims_spared dir))).
  apply in_or_app. left. assumption.
Qed.

Lemma victims_spared_NoDup (dir : list file) :
  NoDup (map f_name dir) ->
  NoDup (map f_name (victims env dir ++ spared env dir)).
Proof.
  intros Hnd.
  apply (Permutation_NoDup (Permutation_map f_name (victims_spared dir))).
  apply NoDup_map_filter. assumption.
Qed.

End CleanupFacts.

Section Eviction.

Variable env : environment.

Lemma deletable_true (f : file) :
  deletable env f = true <-> unlink_error env (f_name f) = None.
Proof.
  unfold deletable. destruct (unlink_error env (f_name f)); split; congruence.
Qed.

Lemma unlink_all_NoDup (doomed dir : list file) :
  NoDup (map f_name dir) -> NoDup (map f_name (unlink_all doomed dir)).
Proof.
  revert dir. induction doomed as [ | v r IH]; intros dir H.
  - exact H.
  - unfold unlink_all in *. simpl. apply IH. apply NoDup_map_filter. exact H.
Qed.

Lemma victims_NoDup (dir : list file) :
  NoDup (map f_name dir) -> NoDup (map f_name (victims env dir)).
Proof.
  intros H. pose proof (victims_spared_NoDup env dir H) as Hvs.
  rewrite map_app in Hvs. apply NoDup_app_remove_r in Hvs. exact Hvs.
Qed.

(** The directory after the cleanup: the entries that were not victims
    with a successful [unlink()]. *)
Lemma cleanup_old_files_keeps (w : world) (f : file) :
  NoDup (map f_name (w_dir w)) ->
  In f (w_dir (cleanup_old_files env w))
  <-> In f (w_dir w)
      /\ ~ (In f (victims env (w_dir w)) /\ unlink_error env (f_name f) = None).
Proof.
  intros Hnd. rewrite cleanup_old_files_dir, in_unlink_all. split.
  - intros [Hin Hnot]. split; [assumption | ]. intros [Hv Hnone].
    apply Hnot. apply in_map. apply filter_In. split; [assumption | ].
    apply deletable_true. assumption.
  - intros [Hin Hnot]. split; [assumption | ]. intros Hname.
    apply in_map_iff in Hname. destruct Hname as [g [Hg Hgin]].
    apply filter_In in Hgin. destruct Hgin as [Hgv Hgd].
    assert (g = f) as ->.
    { apply (same_name_same_file (w_dir w)); try assumption.
      apply (victims_incl env). assumption. }
    apply Hnot. split; [assumption | ]. apply deletable_true. assumption.
Qed.

Lemma cleanup_old_files_count (w : world) :
  NoDup (map f_name (w_dir w)) ->
  (List.length (w_dir (cleanup_old_files env w))
   + List.length (filter (deletable env) (victims env (w_dir w)))
   = List.length (w_dir w))%nat.
Proof.
  intros Hnd. rewrite cleanup_old_files_dir. apply unlink_all_length.
  - assumption.
  - apply NoDup_map_filter. apply victims_NoDup. assumption.
  - intros f Hf. apply filter_In in Hf. apply (victims_incl env). tauto.
Qed.

(** C5 (amended): [cleanup_old_files] lists the entries whose [stat()]
    succeeds with their modification times, orders them oldest first,
    and goes through the floor(listed/2) oldest of them: each is deleted
    unless its deletion fails, in which case a warning is logged and the
    loop goes on.  An entry whose [stat()] fails is passed over and
    kept.  When every deletion succeeds, exactly floor(listed/2) entries
    are deleted, and no retained entry that was listed is older than a
    deleted one; when moreover every [stat()] succeeds, that is
    floor(count/2) entries, and the retained ones are the most recently
    modified. *)
Theorem cleanup_old_files_evicts_oldest_half (w : world) :
  NoDup (map f_name (w_dir w)) ->
  let dir := w_dir w in
  let dir' := w_dir (cleanup_old_files env w) in
  Permutation (map snd (sorted_files env dir)) (listed env dir)
  /\ StronglySorted older (sorted_files env dir)
  /\ List.length (victims env dir) = (List.length (listed env dir) / 2)%nat
  /\ Permutation (listed env dir) (victims env dir ++ spared env dir)
  /\ (forall v o, In v (victims env dir) -> In o (spared env dir) ->
                  (f_mtime v <= f_mtime o)%Z)
  /\ (forall f, In f dir'
                <-> In f dir
                    /\ ~ (In f (victims env dir)
                          /\ unlink_error env (f_name f) = None))
  /\ (forall f e, In f (victims env dir) ->
                  unlink_error env (f_name f) = Some e ->
                  In (LogCouldNotRemove (f_name f) e)
                     (w_log (cleanup_old_files env w)))
  /\ (List.length dir' + List.length (filter (deletable env) (victims env dir))
      = List.length dir)%nat
  /\ (forall f, In f dir -> stat_ok env (f_name f) = false -> In f dir')
  /\ ((forall v, In v (victims env dir) -> unlink_error env (f_name v) = None) ->
      List.length dir'
      = (List.length dir - List.length (listed env dir) / 2)%nat
      /\ (forall f, In f dir' <-> In f dir /\ ~ In f (victims env dir))
      /\ forall v k, In v (victims env dir) -> In k dir' ->
                     stat_ok env (f_name k) = true ->
                     (f_mtime v <= f_mtime k)%Z)
  /\ ((forall f, In f dir ->
                 stat_ok env (f_name f) = true
                 /\ unlink_error env (f_name f) = None) ->
      List.length dir' = (List.length dir - List.length dir / 2)%nat
      /\ Permutation dir (victims env dir ++ dir')
      /\ forall v k, In v (victims env dir) -> In k dir' ->
                     (f_mtime v <= f_mtime k)%Z).
Proof.
  intros Hnd dir dir'. subst dir dir'.
  assert (forall f, In f (victims env (w_dir w)) ->
                    In f (listed env (w_dir w))) as Hvl.
  { intros f Hf.
    apply (Permutation_in _ (Permutation_sym (victims_spared env (w_dir w)))).
    apply in_or_app. left. exact Hf. }
  split; [apply sorted_files_snd | ].
  split; [apply sort_by_mtime_sorted | ].
  split; [apply victims_length | ].
  split; [apply victims_spared | ].
  split; [apply victims_older | ].
  split; [intros f; apply cleanup_old_files_keeps; assumption | ].
  split.
  { intros f e Hv He. rewrite cleanup_old_files_log.
    apply in_or_app. right. apply in_or_app. left.
    unfold warnings. apply in_flat_map. exists f. split; [assumption | ].
    rewrite He. left. reflexivity. }
  split; [apply cleanup_old_files_count; assumption | ].
  split.
  { intros f Hf Hstat. apply (cleanup_old_files_keeps w f Hnd).
    split; [exact Hf | ]. intros [Hv _].
    apply Hvl in Hv. apply filter_In in Hv. destruct Hv as [_ Hv]. congruence. }
  split.
  { intros Hdel.
    assert (filter (deletable env) (victims env (w_dir w)) = victims env (w_dir w))
      as Hall.
    { apply filter_all. intros f Hf. apply deletable_true. apply Hdel. exact Hf. }
    pose proof (cleanup_old_files_count w Hnd) as Hcount. rewrite Hall in Hcount.
    pose proof (victims_length env (w_dir w)) as Hlen.
    assert (forall f, In f (w_dir (cleanup_old_files env w))
                      <-> In f (w_dir w) /\ ~ In f (victims env (w_dir w))) as Hkeep.
    { intros f. rewrite (cleanup_old_files_keeps w f Hnd). split.
      - intros [Hin Hnot]. split; [exact Hin | ]. intros Hv. apply Hnot.
        split; [exact Hv | ]. apply Hdel. exact Hv.
      - intros [Hin Hnot]. split; [exact Hin | ]. intros [Hv _]. apply Hnot. exact Hv. }
    split; [lia | ]. split; [exact Hkeep | ].
    intros v k Hv Hk Hstat. apply Hkeep in Hk. destruct Hk as [Hin Hnot].
    apply (victims_older env (w_dir w)); [exact Hv | ].
    assert (In k (listed env (w_dir w))) as Hl.
    { apply filter_In. split; assumption. }
    apply (Permutation_in _ (victims_spared env (w_dir w))) in Hl.
    apply in_app_or in Hl. destruct Hl as [Hl | Hl]; [contradiction | exact Hl]. }
  intros Hok.
  assert (listed env (w_dir w) = w_dir w) as Hall.
  { apply filter_all. intros f Hf. apply Hok. assumption. }
  assert (filter (deletable env) (victims env (w_dir w)) = victims env (w_dir w)) as Hdel.
  { apply filter_all. intros f Hf. apply deletable_true. apply Hok.
    apply (victims_incl env). assumption. }
  pose proof (cleanup_old_files_count w Hnd) as Hcount. rewrite Hdel in Hcount.
  pose proof (victims_length env (w_dir w)) as Hlen. rewrite Hall in Hlen.
  pose proof (victims_spared env (w_dir w)) as Hperm. rewrite Hall in Hperm.
  pose proof (victims_spared_NoDup env (w_dir w) Hnd) as Hnd2.
  apply NoDup_map_inv in Hnd2.
  assert (forall f, In f (spared env (w_dir w))
                    <-> In f (w_dir (cleanup_old_files env w))) as Hsame.
  { intros f. rewrite (cleanup_old_files_keeps w f Hnd). split.
    - intros Hsp. split.
      + apply (Permutation_in _ (Permutation_sym Hperm)).
        apply in_or_app. right. assumption.
      + intros [Hv _]. apply (NoDup_app_apart _ _ _ f Hnd2 Hv Hsp).
    - intros [Hin Hnot].
      apply (Permutation_in _ Hperm) in Hin. apply in_app_or in Hin.
      destruct Hin as [Hv | Hsp]; [ | assumption].
      exfalso. apply Hnot. split; [assumption | ]. apply Hok.
      apply (victims_incl env). assumption. }
  split; [lia | ]. split.
  - eapply Permutation_trans; [exact Hperm | ].
    apply Permutation_app_head. apply NoDup_Permutation.
    + apply NoDup_app_remove_l in Hnd2. assumption.
    + apply (NoDup_map_inv f_name). rewrite cleanup_old_files_dir.
      apply unlink_all_NoDup. assumption.
    + exact Hsame.
  - intros v k Hv Hk. apply (victims_older env (w_dir w)); [assumption | ].
    apply Hsame. assumption.
Qed.

End Eviction.

(** Five entries of which one cannot be examined: four are listed, the
    two oldest of those are deleted, and the entry passed over stays. *)
Lemma cleanup_old_files_evicts_oldest_half_witness :
  NoDup (map f_name (w_dir Demo.five_files))
  /\ List.length (w_dir (cleanup_old_files Scenarios.env_stale Demo.five_files))
     = (5 - 4 / 2)%nat
  /\ (forall f, In f (w_dir (cleanup_old_files Scenarios.env_stale Demo.five_files))
                <-> In f (w_dir Demo.five_files)
                    /\ ~ In f (victims Scenarios.env_stale (w_dir Demo.five_files)))
  /\ forall v k, In v (victims Scenarios.env_stale (w_dir Demo.five_files)) ->
                 In k (w_dir (cleanup_old_files Scenarios.env_stale Demo.five_files)) ->
                 stat_ok Scenarios.env_stale (f_name k) = true ->
                 (f_mtime v <= f_mtime k)%Z.
Proof.
  assert (NoDup (map f_name (w_dir Demo.five_files))) as Hnd.
  { simpl. repeat (constructor; [simpl; intuition discriminate | ]). constructor. }
  split; [exact Hnd | ].
  destruct (cleanup_old_files_evicts_oldest_half
              Scenarios.env_stale Demo.five_files Hnd)
    as (_ & _ & _ & _ & _ & _ & _ & _ & _ & Hdel & _).
  apply Hdel. intros v Hv. reflexivity.
Defined.

(** C5, as stated, fails: of four stored records one cannot be examined
    ([stat()] fails for [b.hl7], the oldest); every deletion succeeds,
    yet the cleanup deletes one record, not floor(4/2) = 2, and the
    record it deletes is newer than one it retains. *)
Lemma stale_record_is_not_counted :
  let w := Scenarios.four_files in
  let w' := cleanup_old_files Scenarios.env_stale w in
  count_message_files w = 4%nat
  /\ (forall f, In f (w_dir w) ->
                unlink_error Scenarios.env_stale (f_name f) = None)
  /\ map f_name (w_dir w') = [lit "a.hl7"; lit "b.hl7"; lit "c.hl7"]
  /\ count_message_files w' <> (4 - 4 / 2)%nat
  /\ exists gone kept,
      In gone (w_dir w) /\ ~ In gone (w_dir w')
      /\ In kept (w_dir w')
      /\ (f_mtime kept < f_mtime gone)%Z.
Proof.
  intros w w'.
  split; [reflexivity | ].
  split; [intros f Hf; reflexivity | ].
  split; [vm_compute; reflexivity | ].
  split; [vm_compute; discriminate | ].
  exists {| f_name := lit "d.hl7"; f_mtime := 20; f_body := [] |},
         {| f_name := lit "b.hl7"; f_mtime := 10; f_body := [] |}.
  split; [vm_compute; tauto | ].
  split.
  - vm_compute. intros [H | [H | [H | []]]]; discriminate H.
  - split; [vm_compute; tauto | reflexivity].
Qed.

Example cleanup_five_files :
  map f_name (w_dir (cleanup_old_files Demo.env Demo.five_files))
  = [lit "a.hl7"; lit "c.hl7"; lit "e.hl7"].
Proof. vm_compute. reflexivity. Qed.

(* ------------------------------------------------------------------ *)
(** ** Message store: saving *)
(* ------------------------------------------------------------------ *)

Section Saving.

Lemma put_file_length_le (new : file) (dir : list file) :
  (List.length dir <= List.length (put_file new dir) <= S (List.length dir))%nat.
Proof.
  induction dir as [ | f r IH]; simpl.
  - lia.
  - destruct (pystr_eqb (f_name f) (f_name new)); simpl; lia.
Qed.


Variable max_files : Z.
Variable env : environment.

Lemma store_length_le (name body : pystr) (mtime : Z) (w : world) :
  (List.length (w_dir w)
   <= List.length (w_dir (store name body mtime w))
   <= S (List.length (w_dir w)))%nat.
Proof.
  unfold store. destruct (contains SLASH name); simpl.
  - lia.
  - apply put_file_length_le.
Qed.

(** With every [stat()] and every [unlink()] succeeding, the cleanup
    leaves the count minus its half, rounded down. *)
Lemma cleanup_old_files_halves (w : world) :
  NoDup (map f_name (w_dir w)) ->
  (forall f, In f (w_dir w) ->
             stat_ok env (f_name f) = true /\ unlink_error env (f_name f) = None) ->
  List.length (w_dir (cleanup_old_files env w))
  = (List.length (w_dir w) - List.length (w_dir w) / 2)%nat.
Proof.
  intros Hnd Hok.
  pose proof (cleanup_old_files_count env w Hnd) as Hcount.
  pose proof (victims_length env (w_dir w)) as Hvl.
  assert (listed env (w_dir w) = w_dir w) as Hall.
  { apply filter_all. intros f Hf. apply Hok. assumption. }
  rewrite Hall in Hvl.
  rewrite filter_all in Hcount.
  - lia.
  - intros f Hf. apply deletable_true. apply Hok. apply (victims_incl env). assumption.
Qed.

Lemma save_message_unfold (message_text control_id msg_type : pystr)
      (client_address : pystr * N) (w : world) :
  let w1 := before_write max_files env w in
  let timestamp := clock env (w_ticks w) in
  let filename := filename_of timestamp control_id msg_type in
  let text := file_text timestamp message_text control_id msg_type client_address in
  save_message max_files env message_text control_id msg_type client_address w
  = match write_result env filename with
    | OpenFails e => (PyNone, logger (LogSaveFailed e) w1)
    | WriteFails written e =>
      (PyNone, logger (LogSaveFailed e)
                      (store filename (firstn written text) (epoch timestamp) w1))
    | WriteOk =>
      (PyNone,
       logger (LogSaved filename
                        (count_message_files
                           (store filename text (epoch timestamp) w1))
                        max_files)
              (store filename text (epoch timestamp) w1))
    end.
Proof.
  unfold save_message, before_write, now.
  destruct (Z.of_nat (count_message_files w) >=? max_files)%Z.
  - destruct (cleanup_old_files_rest env
                (logger (LogLimitReached (count_message_files w) max_files) w))
      as [Ht _].
    cbn [fst snd w_ticks] in *. rewrite Ht. reflexivity.
  - reflexivity.
Qed.

End Saving.

Section Capacity.

Variable max_files : Z.
Variable env : environment.

Lemma before_write_count (w : world) :
  NoDup (map f_name (w_dir w)) ->
  (forall f, In f (w_dir w) ->
             stat_ok env (f_name f) = true /\ unlink_error env (f_name f) = None) ->
  count_message_files (before_write max_files env w)
  = if (Z.of_nat (count_message_files w) >=? max_files)%Z
    then (count_message_files w - count_message_files w / 2)%nat
    else count_message_files w.
Proof.
  intros Hnd Hok. unfold before_write, count_message_files, now. cbn [snd w_dir].
  destruct (Z.of_nat (List.length (w_dir w)) >=? max_files)%Z.
  - apply (cleanup_old_files_halves env
             (logger (LogLimitReached (List.length (w_dir w)) max_files) w));
      assumption.
  - reflexivity.
Qed.



End Capacity.


(* ------------------------------------------------------------------ *)
(** ** Message processing *)
(* ------------------------------------------------------------------ *)

Section Processing.

Variable max_files : Z.
Variable env : environment.

Lemma before_write_view (w : world) :
  client_view (before_write max_files env w)
  = (S (w_ticks w), w_sends w, w_wire w).
Proof.
  unfold before_write, now, client_view. cbn [snd w_ticks w_sends w_wire].
  destruct (Z.of_nat (count_message_files w) >=? max_files)%Z.
  - destruct (cleanup_old_files_rest env
                (logger (LogLimitReached (count_message_files w) max_files) w))
      as (Ht & Hs & Hw).
    rewrite Ht, Hs, Hw. reflexivity.
  - reflexivity.
Qed.

Lemma store_view (name body : pystr) (mtime : Z) (w : world) :
  client_view (store name body mtime w) = client_view w.
Proof. unfold store. destruct (contains SLASH name); reflexivity. Qed.

(** [save_message] gives [None] whatever happens, and the client sees
    nothing of it but one reading of the clock. *)
Lemma save_message_returns_none (message_text control_id msg_type : pystr)
      (client_address : pystr * N) (w : world) :
  fst (save_message max_files env message_text control_id msg_type
                    client_address w) = PyNone.
Proof.
  rewrite save_message_unfold. cbv zeta.
  destruct (write_result env _); reflexivity.
Qed.

Lemma save_message_view (message_text control_id msg_type : pystr)
      (client_address : pystr * N) (w : world) :
  client_view (snd (save_message max_files env message_text control_id msg_type
                                 client_address w))
  = (S (w_ticks w), w_sends w, w_wire w).
Proof.
  rewrite save_message_unfold. cbv zeta.
  destruct (write_result env _); cbn [snd];
    change (client_view (logger ?e ?x)) with (client_view x);
    rewrite ?store_view; apply before_write_view.
Qed.

Lemma send_view (text : pystr) (w : world) :
  fst (send text w) = fst (attempt_send text (client_view w))
  /\ client_view (snd (send text w)) = snd (attempt_send text (client_view w)).
Proof.
  unfold send, attempt_send, client_view.
  destruct (w_sends w) as [ | [e | ] later]; split; reflexivity.
Qed.

Lemma process_except_view (e : pystr) (w : world) :
  client_view (process_except env e w) = exchange_nak (clock env) e (client_view w).
Proof.
  unfold process_except, exchange_nak, now. cbn [client_view].
  match goal with
  | |- client_view (snd (send ?t ?x)) = _ =>
    destruct (send_view t x) as [_ Hv]; rewrite Hv
  end.
  reflexivity.
Qed.

Lemma process_try_unfold (message_text : pystr) (client_address : pystr * N)
      (w : world) :
  process_try max_files env message_text client_address w
  = match hl7_parse_msh env (replace LF CR message_text) with
    | Raise e => (Raise e, w)
    | Ok msh =>
      let w2 :=
        snd (save_message max_files env message_text (field_or_unknown msh 10)
                          (field_or_unknown msh 9) client_address
                          (logger (LogReceived (field_or_unknown msh 9)
                                               (field_or_unknown msh 10)
                                               (field_or_unknown msh 3)) w)) in
      match create_ack msh (clock env (w_ticks w2)) with
      | Raise e => (Raise e, snd (now env w2))
      | Ok ack_message =>
        match send ack_message (snd (now env w2)) with
        | (Raise e, w4) => (Raise e, w4)
        | (Ok _, w4) => (Ok tt, logger (LogAckSent (field_or_unknown msh 10)) w4)
        end
      end
    end.
Proof.
  unfold process_try.
  destruct (hl7_parse_msh env (replace LF CR message_text)) as [msh | e];
    [ | reflexivity].
  destruct (save_message _ _ _ _ _ _ _) as [r w2]. reflexivity.
Qed.

(** What the client sees of [process_message] is [exchange]. *)
Lemma process_message_exchange (client_address : pystr * N)
      (message_text : pystr) (w : world) :
  client_view (process_message max_files env client_address message_text w)
  = exchange (clock env) (hl7_parse_msh env) message_text (client_view w).
Proof.
  unfold process_message. rewrite process_try_unfold. unfold exchange.
  cbn [client_view].
  destruct (hl7_parse_msh env (replace LF CR message_text)) as [msh | e].
  - cbv zeta.
    pose proof (save_message_view
                  message_text (field_or_unknown msh 10) (field_or_unknown msh 9)
                  client_address
                  (logger (LogReceived (field_or_unknown msh 9)
                                       (field_or_unknown msh 10)
                                       (field_or_unknown msh 3)) w)) as Hsave.
    cbn [logger w_ticks w_sends w_wire] in Hsave.
    set (w2 := snd (save_message _ _ _ _ _ _ _)) in *.
    assert (w_ticks w2 = S (w_ticks w)) as Ht by (unfold client_view in Hsave; congruence).
    assert (client_view (snd (now env w2)) = (S (S (w_ticks w)), w_sends w, w_wire w)) as Hnow.
    { unfold now, client_view in *. cbn [snd w_ticks w_sends w_wire]. congruence. }
    rewrite Ht.
    destruct (create_ack msh (clock env (S (w_ticks w)))) as [ack | e].
    + destruct (send_view ack (snd (now env w2))) as [Hf Hv].
      rewrite Hnow in Hf, Hv.
      destruct (send ack (snd (now env w2))) as [[u | e] w4];
        destruct (attempt_send ack (S (S (w_ticks w)), w_sends w, w_wire w))
        as [[u' | e'] c']; cbn [fst snd] in Hf, Hv; try discriminate.
      * change (client_view (logger ?e ?x)) with (client_view x). exact Hv.
      * rewrite process_except_view. congruence.
    + rewrite process_except_view. rewrite Hnow. reflexivity.
  - apply process_except_view.
Qed.

End Processing.

(* ------------------------------------------------------------------ *)
(** ** The receive loop as a fold over the frames *)
(* ------------------------------------------------------------------ *)

Section LoopFold.

Variable St : Type.
Variable process : pystr -> St -> St.

Lemma run_collect (msgs : list pystr) (m : pystr) (st : St) :
  run process (collect m msgs) st = process m (run process msgs st).
Proof. unfold run, collect. rewrite fold_left_app. reflexivity. Qed.

Lemma frame_loop_fold (fuel : nat) (buffer : pystr) (msgs : list pystr) (st : St) :
  frame_loop process fuel buffer (run process msgs st)
  = (fst (frame_loop collect fuel buffer msgs),
     run process (snd (frame_loop collect fuel buffer msgs)) st).
Proof.
  revert buffer msgs. induction fuel as [ | fuel IH]; intros buffer msgs; simpl.
  - reflexivity.
  - destruct (has_end_marker buffer); [ | reflexivity].
    destruct (end_position buffer =? -1)%Z; [reflexivity | ].
    destruct (truthy (strip (slice_to buffer (end_position buffer)))).
    + rewrite <- run_collect. apply IH.
    + apply IH.
Qed.

Lemma receive_loop_fold (events : list recv_event) (buffer : pystr)
      (msgs : list pystr) (st : St) :
  receive_loop process events buffer (run process msgs st)
  = (fst (receive_loop collect events buffer msgs),
     run process (snd (receive_loop collect events buffer msgs)) st).
Proof.
  revert buffer msgs. induction events as [ | ev rest IH]; intros buffer msgs.
  - reflexivity.
  - destruct ev as [ | data | e]; try reflexivity.
    simpl. destruct (truthy (decode_utf8_ignore data)); [ | reflexivity].
    simpl negb. cbv iota. unfold process_buffer.
    rewrite frame_loop_fold.
    destruct (frame_loop collect _ _ msgs) as [buffer' msgs'].
    cbn [fst snd]. apply IH.
Qed.

End LoopFold.

(* ------------------------------------------------------------------ *)
(** ** Failures: what is answered, what is surfaced *)
(* ------------------------------------------------------------------ *)

Section Failures.

Variable max_files : Z.
Variable env : environment.

Lemma create_nak_unknown_text (e : pystr) (now : datetime) :
  create_nak UNKNOWN e now
  = lit "MSH|^~\&|HL7_SERVER||||" ++ strftime_compact now
      ++ lit "||ACK|UNKNOWN_NAK|P|2.3.1" ++ [CR]
      ++ lit "MSA|AE|UNKNOWN|" ++ firstn 100 e ++ [CR] ++ [FS].
Proof.
  unfold create_nak, nak_header, nak_msa. rewrite <- !app_assoc. reflexivity.
Qed.

Lemma create_ack_total (msh : list pystr) (now : datetime) :
  (4 < List.length msh)%nat -> exists ack, create_ack msh now = Ok ack.
Proof.
  intros Hlen. unfold create_ack, getitem.
  rewrite (nth_error_nth' msh [] (n := 3)) by lia.
  rewrite (nth_error_nth' msh [] (n := 4)) by lia.
  simpl bind. eexists. reflexivity.
Qed.

(** The [except] block: the failure is logged and a negative
    acknowledgment with control id [UNKNOWN] is sent, unless that [send]
    fails too. *)
Lemma process_except_effect (e : pystr) (w : world) :
  w_wire (process_except env e w)
  = w_wire w
    ++ match w_sends w with
       | Some _ :: _ => []
       | _ => [create_nak UNKNOWN e (clock env (w_ticks w))]
       end
  /\ In (LogProcessError e) (w_log (process_except env e w)).
Proof.
  unfold process_except, now, send, logger. cbn [w_sends w_log w_ticks w_wire w_dir].
  destruct (w_sends w) as [ | [e' | ] later]; cbn [snd w_wire w_log]; split;
    try reflexivity; try (apply in_or_app; right; left; reflexivity).
  symmetry. apply app_nil_r.
Qed.

(** Nothing reaches the wire in a [try] block that raises. *)
Lemma process_try_raises (message_text : pystr) (client_address : pystr * N)
      (w w1 : world) (e : pystr) :
  process_try max_files env message_text client_address w = (Raise e, w1) ->
  w_wire w1 = w_wire w.
Proof.
  rewrite process_try_unfold.
  destruct (hl7_parse_msh env (replace LF CR message_text)) as [msh | e0].
  - cbv zeta.
    pose proof (save_message_view max_files env
                  message_text (field_or_unknown msh 10) (field_or_unknown msh 9)
                  client_address
                  (logger (LogReceived (field_or_unknown msh 9)
                                       (field_or_unknown msh 10)
                                       (field_or_unknown msh 3)) w)) as Hsave.
    cbn [logger w_ticks w_sends w_wire] in Hsave.
    set (w2 := snd (save_message _ _ _ _ _ _ _)) in *.
    assert (w_wire w2 = w_wire w) as Hw by (unfold client_view in Hsave; congruence).
    destruct (create_ack msh (clock env (w_ticks w2))) as [ack | e1].
    + unfold send, now. cbn [snd w_sends w_wire w_dir w_log w_ticks].
      destruct (w_sends w2) as [ | [e2 | ] later]; intros H; inversion H; subst.
      cbn [w_wire]. exact Hw.
    + intros H. inversion H; subst. unfold now. cbn [snd w_wire]. exact Hw.
  - intros H. inversion H; subst. reflexivity.
Qed.

Lemma handle_client_runs (client_address : pystr * N)
      (events : list recv_event) (w : world) :
  handle_client max_files env client_address events w
  = (exit_of events,
     logger LogConnectionClosed
       (match exit_of events with
        | Raised e =>
          logger (LogClientError e)
                 (run (process_message max_files env client_address)
                      (frames_of events) w)
        | _ => run (process_message max_files env client_address)
                   (frames_of events) w
        end)).
Proof.
  unfold handle_client, exit_of, frames_of.
  pose proof (receive_loop_fold world
                                (process_message max_files env client_address)
                                events [] [] w) as H.
  change (run (process_message max_files env client_address) [] w) with w in H.
  rewrite H.
  destruct (receive_loop collect events [] []) as [[how buffer] msgs].
  cbn [fst snd]. destruct how; reflexivity.
Qed.

End Failures.

(** C3, as stated, fails: on a disk that refuses the write,
    [save_message] logs the failure and gives [None], as it does after a
    successful write; nothing is stored, and [process_message] answers
    with the same positive acknowledgment as when the write succeeds. *)
Lemma failed_write_is_acknowledged :
  let save env :=
    save_message 1000 env Demo.msg1 (lit "CTRL1") (lit "ORU^W01") Demo.client
                 Demo.empty_world in
  let answer env :=
    process_message 1000 env Demo.client Demo.msg1 Demo.empty_world in
  fst (save Demo.env) = PyNone
  /\ fst (save Demo.env_disk_full) = PyNone
  /\ w_log (snd (save Demo.env_disk_full))
     = [LogSaveFailed (lit "[Errno 28] No space left on device")]
  /\ w_dir (answer Demo.env_disk_full) = []
  /\ w_wire (answer Demo.env_disk_full) = w_wire (answer Demo.env)
  /\ w_wire (answer Demo.env_disk_full)
     = [lit "MSH|^~\&|HL7_SERVER||DEV||20240101120001||ACK|CTRL1_ACK|P|2.3.1"
          ++ [CR] ++ lit "MSA|AA|CTRL1|Message accepted" ++ [CR] ++ [FS]].
Proof. vm_compute. repeat split; reflexivity. Qed.

(** C3 (amended): [save_message] gives [None] in every case; a failed
    write is caught and logged inside it, a successful one is logged
    with the file name; and what [process_message] sends to the client
    depends neither on the directory nor on the answers of the file
    system, so a failed write is not surfaced to the client. *)
Theorem write_failure_stays_inside_save_message :
  (forall max_files env message_text control_id msg_type client_address w,
      fst (save_message max_files env message_text control_id msg_type
                        client_address w) = PyNone)
  /\ (forall max_files env message_text control_id msg_type client_address w,
         let filename := filename_of (clock env (w_ticks w)) control_id msg_type in
         let w' := snd (save_message max_files env message_text control_id
                                     msg_type client_address w) in
         match write_result env filename with
         | WriteOk =>
           last (w_log w') LogConnectionClosed
           = LogSaved filename (count_message_files w') max_files
         | OpenFails e =>
           last (w_log w') LogConnectionClosed = LogSaveFailed e
           /\ w_dir w' = w_dir (before_write max_files env w)
         | WriteFails _ e =>
           last (w_log w') LogConnectionClosed = LogSaveFailed e
         end)
  /\ (forall max1 max2 stat1 stat2 unlink1 unlink2 write1 write2 clk parse
             dir1 dir2 log1 log2 ticks sends wire client_address message_text,
         client_view
           (process_message max1
              {| stat_ok := stat1; unlink_error := unlink1; write_result := write1;
                 clock := clk; hl7_parse_msh := parse |}
              client_address message_text
              {| w_dir := dir1; w_log := log1; w_ticks := ticks;
                 w_sends := sends; w_wire := wire |})
         = client_view
             (process_message max2
                {| stat_ok := stat2; unlink_error := unlink2; write_result := write2;
                   clock := clk; hl7_parse_msh := parse |}
                client_address message_text
                {| w_dir := dir2; w_log := log2; w_ticks := ticks;
                   w_sends := sends; w_wire := wire |})).
Proof.
  split; [ | split].
  - intros. apply save_message_returns_none.
  - intros max_files env message_text control_id msg_type client_address w
           filename w'.
    subst w'. rewrite save_message_unfold. cbv zeta. fold filename.
    destruct (write_result env filename) as [ | e | written e]; cbn [snd].
    + unfold logger at 1. cbn [w_log]. rewrite last_last. reflexivity.
    + split; [ | reflexivity]. unfold logger. cbn [w_log]. apply last_last.
    + unfold logger at 1. cbn [w_log]. apply last_last.
  - intros. rewrite !process_message_exchange. reflexivity.
Qed.

(** C4, as stated, fails: a message whose persistence fails is not
    answered with a negative acknowledgment; the failure is logged by
    [save_message] and the positive acknowledgment is sent. *)
Lemma persistence_failure_gets_ack :
  let w' := process_message 1000 Demo.env_disk_full Demo.client Demo.msg1
                            Demo.empty_world in
  w_log w'
  = [LogReceived (lit "ORU^W01") (lit "CTRL1") (lit "DEV");
     LogSaveFailed (lit "[Errno 28] No space left on device");
     LogAckSent (lit "CTRL1")]
  /\ w_dir w' = []
  /\ w_wire w'
     = [lit "MSH|^~\&|HL7_SERVER||DEV||20240101120001||ACK|CTRL1_ACK|P|2.3.1"
          ++ [CR] ++ lit "MSA|AA|CTRL1|Message accepted" ++ [CR] ++ [FS]].
Proof. vm_compute. repeat split; reflexivity. Qed.

(** C4 (amended): for every extracted message whose processing raises a
    failure (in parsing, in header extraction and acknowledgment
    building, or in sending), the failure is logged and a negative
    acknowledgment carrying the first 100 characters of its description
    is sent, unless that send fails too; a parse failure is such a
    failure; a failed write is not: it raises nothing in the handler and
    the reply is the one the message would get had the write succeeded
    (what the client sees is [exchange], in which the file system does
    not occur), which is the positive acknowledgment when the parsed
    header has more than four fields and the send works; in every case
    the loop goes on, so that the handler processes all frames of the
    connection in order. *)
Theorem failed_message_is_answered_and_loop_goes_on
        (max_files : Z) (env : environment) (client_address : pystr * N) :
  (forall message_text w e w1,
      process_try max_files env message_text client_address w = (Raise e, w1) ->
      In (LogProcessError e)
         (w_log (process_message max_files env client_address message_text w))
      /\ w_wire (process_message max_files env client_address message_text w)
         = w_wire w
           ++ match w_sends w1 with
              | Some _ :: _ => []
              | _ => [create_nak UNKNOWN e (clock env (w_ticks w1))]
              end)
  /\ (forall message_text w e,
         hl7_parse_msh env (replace LF CR message_text) = Raise e ->
         process_try max_files env message_text client_address w = (Raise e, w))
  /\ (forall message_text w,
         client_view (process_message max_files env client_address message_text w)
         = exchange (clock env) (hl7_parse_msh env) message_text (client_view w))
  /\ (forall message_text w msh,
         hl7_parse_msh env (replace LF CR message_text) = Ok msh ->
         (4 < List.length msh)%nat ->
         (forall e later, w_sends w <> Some e :: later) ->
         exists ack,
           create_ack msh (clock env (S (w_ticks w))) = Ok ack
           /\ w_wire (process_message max_files env client_address message_text w)
              = w_wire w ++ [ack])
  /\ (forall events w,
         handle_client max_files env client_address events w
         = (exit_of events,
            logger LogConnectionClosed
              (match exit_of events with
               | Raised e =>
                 logger (LogClientError e)
                        (run (process_message max_files env client_address)
                             (frames_of events) w)
               | _ => run (process_message max_files env client_address)
                          (frames_of events) w
               end))).
Proof.
  split; [ | split; [ | split; [ | split]]].
  - intros message_text w e w1 Htry.
    pose proof (process_try_raises max_files env message_text client_address
                                   w w1 e Htry) as Hwire.
    unfold process_message. rewrite Htry.
    destruct (process_except_effect env e w1) as [Hw Hl].
    split; [exact Hl | ]. rewrite Hw, Hwire. reflexivity.
  - intros message_text w e Hparse. unfold process_try. rewrite Hparse. reflexivity.
  - intros message_text w. apply process_message_exchange.
  - intros message_text w msh Hparse Hlen Hsend.
    destruct (create_ack_total msh (clock env (S (w_ticks w))) Hlen) as [ack Hack].
    exists ack. split; [exact Hack | ].
    pose proof (process_message_exchange max_files env client_address
                                         message_text w) as Hx.
    unfold exchange, client_view in Hx. rewrite Hparse, Hack in Hx.
    unfold attempt_send in Hx.
    destruct (w_sends w) as [ | [e | ] later] eqn:Hs.
    + inversion Hx. reflexivity.
    + exfalso. apply (Hsend e later). reflexivity.
    + inversion Hx. reflexivity.
  - intros events w. apply handle_client_runs.
Qed.

(** A header of four fields: it is parsed and stored, the building of
    the acknowledgment fails, and the failure is answered. *)
Lemma failed_message_is_answered_and_loop_goes_on_witness :
  In (LogProcessError (lit "list index out of range"))
     (w_log (process_message 1000 Demo.env Demo.client Scenarios.short_msg
                             Demo.empty_world))
  /\ w_wire (process_message 1000 Demo.env Demo.client Scenarios.short_msg
                             Demo.empty_world)
     = w_wire Demo.empty_world
       ++ match w_sends (snd (process_try 1000 Demo.env Scenarios.short_msg
                                          Demo.client Demo.empty_world)) with
          | Some _ :: _ => []
          | _ => [create_nak UNKNOWN (lit "list index out of range")
                             (clock Demo.env
                                (w_ticks (snd (process_try 1000 Demo.env
                                                 Scenarios.short_msg Demo.client
                                                 Demo.empty_world))))]
          end.
Proof.
  destruct (failed_message_is_answered_and_loop_goes_on 1000 Demo.env Demo.client)
    as [Hfail _].
  apply (Hfail Scenarios.short_msg Demo.empty_world
               (lit "list index out of range")
               (snd (process_try 1000 Demo.env Scenarios.short_msg Demo.client
                                 Demo.empty_world))).
  vm_compute. reflexivity.
Defined.

(** The same header on a disk that refuses the write: nothing is stored,
    and the reply is the one the header gets on a working disk. *)
Example short_header_on_full_disk :
  let w' := process_message 1000 Demo.env_disk_full Demo.client
                            Scenarios.short_msg Demo.empty_world in
  w_dir w' = []
  /\ w_wire w'
     = [lit "MSH|^~\&|HL7_SERVER||||20240101120002||ACK|UNKNOWN_NAK|P|2.3.1"
          ++ [CR] ++ lit "MSA|AE|UNKNOWN|list index out of range" ++ [CR] ++ [FS]]
  /\ w_wire w'
     = w_wire (process_message 1000 Demo.env Demo.client Scenarios.short_msg
                               Demo.empty_world).
Proof. vm_compute. repeat split; reflexivity. Qed.

(** C9: for every message whose processing fails, the failure is logged
    and the reply that goes on the wire is exactly one negative
    acknowledgment whose header control id field is [UNKNOWN_NAK] and
    whose MSA control id field is [UNKNOWN], whatever control id the
    message carries; nothing at all is sent only when the [send] of that
    reply fails. *)
Theorem nak_carries_unknown
        (max_files : Z) (env : environment) (client_address : pystr * N)
        (message_text : pystr) (w w1 : world) (e : pystr) :
  process_try max_files env message_text client_address w = (Raise e, w1) ->
  In (LogProcessError e)
     (w_log (process_message max_files env client_address message_text w))
  /\ w_wire (process_message max_files env client_address message_text w)
     = w_wire w
       ++ match w_sends w1 with
          | Some _ :: _ => []
          | _ =>
            [lit "MSH|^~\&|HL7_SERVER||||"
               ++ strftime_compact (clock env (w_ticks w1))
               ++ lit "||ACK|UNKNOWN_NAK|P|2.3.1" ++ [CR]
               ++ lit "MSA|AE|UNKNOWN|" ++ firstn 100 e ++ [CR] ++ [FS]]
          end.
Proof.
  intros Htry.
  pose proof (process_try_raises max_files env message_text client_address
                                 w w1 e Htry) as Hwire.
  unfold process_message. rewrite Htry.
  destruct (process_except_effect env e w1) as [Hw Hl].
  split; [exact Hl | ].
  rewrite Hw, Hwire, create_nak_unknown_text. reflexivity.
Qed.

(** The message [CTRL1] is parsed and stored, the sending of its
    acknowledgment fails, and the reply that follows names [UNKNOWN]. *)
Lemma nak_carries_unknown_witness :
  In (LogProcessError (lit "[Errno 32] Broken pipe"))
     (w_log (process_message 1000 Demo.env Demo.client Demo.msg1 Demo.broken_pipe))
  /\ w_wire (process_message 1000 Demo.env Demo.client Demo.msg1 Demo.broken_pipe)
     = w_wire Demo.broken_pipe
       ++ match w_sends (snd (process_try 1000 Demo.env Demo.msg1 Demo.client
                                          Demo.broken_pipe)) with
          | Some _ :: _ => []
          | _ =>
            [lit "MSH|^~\&|HL7_SERVER||||"
               ++ strftime_compact
                    (clock Demo.env
                       (w_ticks (snd (process_try 1000 Demo.env Demo.msg1
                                                  Demo.client Demo.broken_pipe))))
               ++ lit "||ACK|UNKNOWN_NAK|P|2.3.1" ++ [CR]
               ++ lit "MSA|AE|UNKNOWN|"
               ++ firstn 100 (lit "[Errno 32] Broken pipe") ++ [CR] ++ [FS]]
          end.
Proof.
  apply (nak_carries_unknown
           1000 Demo.env Demo.client Demo.msg1 Demo.broken_pipe
           (snd (process_try 1000 Demo.env Demo.msg1 Demo.client Demo.broken_pipe))
           (lit "[Errno 32] Broken pipe")).
  vm_compute. reflexivity.
Defined.

Example nak_after_control_id_was_read :
  let w' := process_message 1000 Demo.env Demo.client Demo.msg1 Demo.broken_pipe in
  map f_name (w_dir w') = [lit "20240101_120000_CTRL1_ORU_W01.hl7"]
  /\ w_wire w'
     = [lit "MSH|^~\&|HL7_SERVER||||20240101120002||ACK|UNKNOWN_NAK|P|2.3.1"
          ++ [CR] ++ lit "MSA|AE|UNKNOWN|[Errno 32] Broken pipe" ++ [CR] ++ [FS]].
Proof. vm_compute. split; reflexivity. Qed.

(* ------------------------------------------------------------------ *)
(** ** Undecodable bytes *)
(* ------------------------------------------------------------------ *)

Lemma receive_loop_empty_text (St : Type) (process : pystr -> St -> St)
      (data : list byte) (rest : list recv_event) (buffer : pystr) (st : St) :
  decode_utf8_ignore data = [] ->
  receive_loop process (RecvData data :: rest) buffer st = (EmptyData, buffer, st).
Proof. intros H. simpl. rewrite H. reflexivity. Qed.

(** C10 at the failing input: a read made only of bytes that are not
    valid UTF-8 decodes to the empty text, which the loop takes for the
    end of the stream: the connection is closed and the message that
    follows is never processed, while the same bytes at the head of a
    larger read are dropped and the message is answered. *)
Theorem undecodable_read_closes_connection :
  let message := ascii_bytes (Demo.msg1 ++ [FS]) in
  let apart := [RecvData [xff]; RecvData message] in
  let together := [RecvData (xff :: message)] in
  decode_utf8_ignore [xff] = []
  /\ exit_of apart = EmptyData
  /\ frames_of apart = []
  /\ handle_client 1000 Demo.env Demo.client apart Demo.empty_world
     = (EmptyData, logger LogConnectionClosed Demo.empty_world)
  /\ frames_of together = [Demo.msg1]
  /\ w_wire (snd (handle_client 1000 Demo.env Demo.client together
                                Demo.empty_world))
     = [lit "MSH|^~\&|HL7_SERVER||DEV||20240101120001||ACK|CTRL1_ACK|P|2.3.1"
          ++ [CR] ++ lit "MSA|AA|CTRL1|Message accepted" ++ [CR] ++ [FS]].
Proof. vm_compute. repeat split; reflexivity. Qed.

(* ================================================================== *)
(** * Further properties of the code *)
(* ================================================================== *)

(* ------------------------------------------------------------------ *)
(** ** What the frame splitter hands on *)
(* ------------------------------------------------------------------ *)

Section Splitter.

Lemma frame_loop_collect_shape (fuel : nat) (buffer : pystr) (acc : list pystr) :
  Forall (fun m => m <> [] /\ strip m = m /\ contains FS m = false) acc ->
  Forall (fun m => m <> [] /\ strip m = m /\ contains FS m = false)
         (snd (frame_loop collect fuel buffer acc)).
Proof.
  revert buffer acc. induction fuel as [ | fuel IH]; intros buffer acc Hacc.
  - exact Hacc.
  - destruct (has_end_marker buffer) eqn:Hm.
    + destruct (end_marker_split buffer Hm) as [pre [t [post [Heq [Hpos Hcase]]]]].
      rewrite (frame_loop_turn (list pystr) collect fuel buffer pre post t acc
                               Hm Heq Hpos).
      apply IH. unfold deliver.
      destruct (strip pre) as [ | c r] eqn:Hs; [exact Hacc | ].
      simpl truthy. cbv iota. unfold collect.
      apply Forall_app. split; [exact Hacc | ].
      constructor; [ | constructor].
      split; [discriminate | ]. split.
      * rewrite <- Hs. apply strip_idem.
      * rewrite <- Hs. apply strip_keeps_absent.
        destruct Hcase as [[_ Hpre] | [_ [Hfs _]]]; [exact Hpre | ].
        subst buffer. rewrite contains_app in Hfs.
        apply orb_false_iff in Hfs. tauto.
    + rewrite frame_loop_idle by exact Hm. exact Hacc.
Qed.

(** X1: every text the receive loop hands to the message processing is
    non-empty, carries no surrounding whitespace and contains no hard
    terminator, whatever bytes arrive and however they are divided into
    reads. *)
Theorem frames_are_trimmed_and_nonempty (events : list recv_event) :
  Forall (fun m => m <> [] /\ strip m = m /\ contains FS m = false)
         (frames_of events).
Proof.
  unfold frames_of.
  assert (forall buffer acc,
             Forall (fun m => m <> [] /\ strip m = m /\ contains FS m = false) acc ->
             Forall (fun m => m <> [] /\ strip m = m /\ contains FS m = false)
                    (snd (receive_loop collect events buffer acc))) as H.
  { induction events as [ | ev rest IH]; intros buffer acc Hacc.
    - exact Hacc.
    - destruct ev as [ | data | e]; try exact Hacc.
      simpl. destruct (truthy (decode_utf8_ignore data)); [ | exact Hacc].
      simpl negb. cbv iota. unfold process_buffer.
      pose proof (frame_loop_collect_shape
                    (S (List.length (buffer ++ decode_utf8_ignore data)))
                    (buffer ++ decode_utf8_ignore data) acc Hacc) as Hstep.
      destruct (frame_loop collect _ _ acc) as [buffer' acc'].
      apply IH. exact Hstep. }
  apply H. constructor.
Qed.

Variable St : Type.
Variable process : pystr -> St -> St.

(** X2: one run of the inner loop leaves no end marker in the buffer,
    and what it leaves is the end of the text it was given: nothing is
    reordered or invented, and no complete message stays behind. *)
Theorem process_buffer_drains (buffer : pystr) (st : St) :
  has_end_marker (fst (process_buffer process buffer st)) = false
  /\ exists consumed,
      buffer = consumed ++ fst (process_buffer process buffer st).
Proof.
  split; [apply frame_loop_complete | ].
  revert st. induction buffer as [buffer Hidle | buffer pre t post Hm Heq Hpos _ IH]
    using frame_induction; intros st.
  - rewrite process_buffer_idle by assumption. exists []. reflexivity.
  - rewrite (process_buffer_turn St process buffer pre post t st Hm Heq Hpos).
    destruct (IH (deliver process pre st)) as [consumed Hc].
    exists (pre ++ t :: consumed). rewrite <- app_assoc. simpl.
    rewrite <- Hc. assumption.
Qed.

(** X3: a buffer made only of whitespace (the two end markers are
    whitespace for [strip]) is consumed without any message being
    processed: blank lines and bare terminators get no reply. *)
Theorem blank_buffer_is_dropped (buffer : pystr) (st : St) :
  Forall (fun c => py_isspace c = true) buffer ->
  snd (process_buffer process buffer st) = st.
Proof.
  revert st. induction buffer as [buffer Hidle | buffer pre t post Hm Heq Hpos _ IH]
    using frame_induction; intros st Hblank.
  - rewrite process_buffer_idle by assumption. reflexivity.
  - rewrite (process_buffer_turn St process buffer pre post t st Hm Heq Hpos).
    subst buffer. apply Forall_app in Hblank. destruct Hblank as [Hpre Hpost].
    inversion Hpost as [ | ? ? _ Hpost']; subst.
    unfold deliver. rewrite (strip_blank pre Hpre). simpl truthy. cbv iota.
    apply IH. exact Hpost'.
Qed.

(** X4: as long as no read brings an end marker, nothing is processed,
    however much data arrives: a message without terminator is never
    stored nor answered, it only accumulates in the buffer. *)
Theorem no_terminator_no_processing
        (events : list recv_event) (buffer : pystr) (st : St) :
  has_end_marker buffer = false ->
  (forall data, In (RecvData data) events ->
                has_end_marker (decode_utf8_ignore data) = false) ->
  snd (receive_loop process events buffer st) = st.
Proof.
  revert buffer. induction events as [ | ev rest IH]; intros buffer Hb Hreads.
  - reflexivity.
  - destruct ev as [ | data | e]; try reflexivity.
    simpl. destruct (truthy (decode_utf8_ignore data)); [ | reflexivity].
    simpl negb. cbv iota.
    assert (has_end_marker (buffer ++ decode_utf8_ignore data) = false) as Hnew.
    { unfold has_end_marker in *. rewrite !contains_app.
      pose proof (Hreads data (or_introl eq_refl)) as Hd.
      apply orb_false_iff in Hb. apply orb_false_iff in Hd.
      destruct Hb as [-> ->]. destruct Hd as [-> ->]. reflexivity. }
    rewrite (process_buffer_idle St process _ st Hnew).
    apply IH; [exact Hnew | ].
    intros d Hd. apply Hreads. right. exact Hd.
Qed.

End Splitter.

Lemma blank_buffer_is_dropped_witness :
  snd (process_buffer collect ([CR; CR] ++ lit "  " ++ [FS; LF; CR]) [])
  = [].
Proof.
  apply (blank_buffer_is_dropped (list pystr) collect).
  repeat constructor.
Defined.

Lemma no_terminator_no_processing_witness :
  snd (receive_loop collect
         [RecvData (ascii_bytes (lit "MSH|^~\&|DEV"));
          RecvData (ascii_bytes (lit "|HOSP")); RecvData []] [] [])
  = [].
Proof.
  apply (no_terminator_no_processing (list pystr) collect).
  - reflexivity.
  - intros data [H | [H | [H | H]]]; try contradiction;
      inversion H; subst; reflexivity.
Defined.

Section SoftTerminator.

Lemma end_position_soft (pre post : pystr) :
  contains FS pre = false -> contains FS post = false ->
  contains CR pre = false ->
  has_end_marker (pre ++ CR :: post) = true
  /\ end_position (pre ++ CR :: post) = Z.of_nat (List.length pre).
Proof.
  intros Hfs1 Hfs2 Hcr.
  assert (contains FS (pre ++ CR :: post) = false) as Hfs.
  { rewrite contains_app, contains_cons, Hfs1, Hfs2. reflexivity. }
  unfold has_end_marker, end_position. split.
  - rewrite Hfs, contains_app, contains_cons. simpl. apply orb_true_r.
  - rewrite (find_from_absent FS _ 0 Hfs : find FS _ = (-1)%Z). simpl.
    apply find_first. exact Hcr.
Qed.

Variable St : Type.
Variable process : pystr -> St -> St.

(** X5: when the buffer holds no hard terminator, every carriage return
    is a message boundary: the pieces between carriage returns are
    processed one by one (trimmed, blank ones dropped) and the text after
    the last carriage return stays in the buffer.  A message of several
    segments whose hard terminator has not arrived yet is thus processed
    segment by segment. *)
Theorem soft_terminator_splits_every_segment (s : pystr) (st : St) :
  contains FS s = false ->
  process_buffer process s st
  = (last (split_on CR s) [],
     run process (handed_on (removelast (split_on CR s))) st).
Proof.
  revert st. induction s as [s H | pre post Hpre IH] using (sep_induction CR);
    intros st Hfs.
  - rewrite (split_on_absent CR s H). simpl.
    apply process_buffer_idle. unfold has_end_marker. rewrite Hfs, H. reflexivity.
  - assert (contains FS pre = false /\ contains FS post = false) as [Hf1 Hf2].
    { rewrite contains_app, contains_cons in Hfs.
      apply orb_false_iff in Hfs. destruct Hfs as [H1 H2].
      apply orb_false_iff in H2. tauto. }
    destruct (end_position_soft pre post Hf1 Hf2 Hpre) as [Hm Hpos].
    rewrite (process_buffer_turn St process _ pre post CR st Hm eq_refl Hpos).
    rewrite (IH _ Hf2). rewrite (split_on_first CR pre post Hpre).
    pose proof (split_on_nonempty CR post) as Hne.
    destruct (split_on CR post) as [ | x l]; [contradiction | ].
    unfold deliver, handed_on, run.
    change (removelast (pre :: x :: l)) with (pre :: removelast (x :: l)).
    change (last (pre :: x :: l) []) with (last (x :: l) []).
    simpl map. simpl filter.
    destruct (truthy (strip pre)); reflexivity.
Qed.

End SoftTerminator.

Lemma soft_terminator_splits_every_segment_witness :
  process_buffer collect (lit "MSH|1" ++ [CR] ++ lit "PID|2" ++ [CR] ++ lit "OBX") []
  = (last (split_on CR (lit "MSH|1" ++ [CR] ++ lit "PID|2" ++ [CR] ++ lit "OBX")) [],
     run collect
         (handed_on
            (removelast
               (split_on CR (lit "MSH|1" ++ [CR] ++ lit "PID|2" ++ [CR] ++ lit "OBX"))))
         []).
Proof.
  apply (soft_terminator_splits_every_segment (list pystr) collect).
  reflexivity.
Defined.

Example segments_processed_one_by_one :
  split_buffer (lit "MSH|1" ++ [CR] ++ lit "PID|2" ++ [CR] ++ lit "OBX")
  = ([lit "MSH|1"; lit "PID|2"], lit "OBX").
Proof. vm_compute. reflexivity. Qed.

(* ------------------------------------------------------------------ *)
(** ** Decoding of the reads *)
(* ------------------------------------------------------------------ *)

Section Decoding.

Lemma is_cont_not_ascii (b : N) : is_cont b = true -> (b < 0x80)%N -> False.
Proof.
  unfold is_cont. intros H Hb. apply andb_true_iff in H. destruct H as [H _].
  apply N.leb_le in H. lia.
Qed.

Lemma second_ok3_cont (b0 b1 : N) : second_ok3 b0 b1 = true -> is_cont b1 = true.
Proof.
  unfold second_ok3. intros H. apply andb_true_iff in H. destruct H as [H _].
  apply andb_true_iff in H. tauto.
Qed.

Lemma second_ok4_cont (b0 b1 : N) : second_ok4 b0 b1 = true -> is_cont b1 = true.
Proof.
  unfold second_ok4. intros H. apply andb_true_iff in H. destruct H as [H _].
  apply andb_true_iff in H. tauto.
Qed.

Lemma decode_N_keeps_ascii (n : nat) :
  forall (bs : list N) (b : N),
    (List.length bs <= n)%nat -> In b bs -> (b < 0x80)%N -> In b (decode_N bs).
Proof.
  induction n as [ | n IHn]; intros bs b Hlen Hin Hb.
  - destruct bs; [contradiction | simpl in Hlen; lia].
  - destruct bs as [ | b0 r0]; [contradiction | ].
    simpl in Hlen.
    assert (forall l, (List.length l <= n)%nat -> In b l -> In b (decode_N l))
      as Hrec by (intros l Hl Hi; apply IHn; assumption).
    simpl decode_N.
    destruct (N.ltb_spec b0 0x80) as [H0 | H0].
    { destruct Hin as [-> | Hin]; [left; reflexivity | ].
      right. apply Hrec; [lia | exact Hin]. }
    assert (In b r0) as Hin0.
    { destruct Hin as [-> | Hin]; [lia | exact Hin]. }
    clear Hin.
    destruct (b0 <? 0xc2)%N; [apply Hrec; [lia | exact Hin0] | ].
    destruct (b0 <? 0xe0)%N.
    { destruct r0 as [ | b1 r1]; [contradiction | ]. simpl in Hlen.
      destruct (is_cont b1) eqn:E1; [ | apply Hrec; [simpl; lia | exact Hin0]].
      destruct Hin0 as [-> | Hin1];
        [exfalso; exact (is_cont_not_ascii _ E1 Hb) | ].
      right. apply Hrec; [lia | exact Hin1]. }
    destruct (b0 <? 0xf0)%N.
    { destruct r0 as [ | b1 r1]; [contradiction | ]. simpl in Hlen.
      destruct (second_ok3 b0 b1) eqn:E1;
        [ | apply Hrec; [simpl; lia | exact Hin0]].
      destruct Hin0 as [-> | Hin1];
        [exfalso; exact (is_cont_not_ascii _ (second_ok3_cont _ _ E1) Hb) | ].
      destruct r1 as [ | b2 r2]; [contradiction | ]. simpl in Hlen.
      destruct (is_cont b2) eqn:E2; [ | apply Hrec; [simpl; lia | exact Hin1]].
      destruct Hin1 as [-> | Hin2];
        [exfalso; exact (is_cont_not_ascii _ E2 Hb) | ].
      right. apply Hrec; [lia | exact Hin2]. }
    destruct (b0 <? 0xf5)%N; [ | apply Hrec; [lia | exact Hin0]].
    destruct r0 as [ | b1 r1]; [contradiction | ]. simpl in Hlen.
    destruct (second_ok4 b0 b1) eqn:E1;
      [ | apply Hrec; [simpl; lia | exact Hin0]].
    destruct Hin0 as [-> | Hin1];
      [exfalso; exact (is_cont_not_ascii _ (second_ok4_cont _ _ E1) Hb) | ].
    destruct r1 as [ | b2 r2]; [contradiction | ]. simpl in Hlen.
    destruct (is_cont b2) eqn:E2; [ | apply Hrec; [simpl; lia | exact Hin1]].
    destruct Hin1 as [-> | Hin2];
      [exfalso; exact (is_cont_not_ascii _ E2 Hb) | ].
    destruct r2 as [ | b3 r3]; [contradiction | ]. simpl in Hlen.
    destruct (is_cont b3) eqn:E3; [ | apply Hrec; [simpl; lia | exact Hin2]].
    destruct Hin2 as [-> | Hin3];
      [exfalso; exact (is_cont_not_ascii _ E3 Hb) | ].
    right. apply Hrec; [lia | exact Hin3].
Qed.

End Decoding.

(** X6: a byte below 0x80 is never dropped by the decoding, whatever
    bytes surround it: every terminator byte of a read reaches the frame
    buffer, and a read that holds such a byte is never taken for the end
    of the stream. *)
Theorem ascii_byte_always_reaches_buffer (data : list byte) (b : byte) :
  In b data -> (Byte.to_N b < 0x80)%N ->
  In (Byte.to_N b) (decode_utf8_ignore data)
  /\ forall (St : Type) (process : pystr -> St -> St)
            (rest : list recv_event) (buffer : pystr) (st : St),
      receive_loop process (RecvData data :: rest) buffer st
      = receive_loop process rest
          (fst (process_buffer process (buffer ++ decode_utf8_ignore data) st))
          (snd (process_buffer process (buffer ++ decode_utf8_ignore data) st)).
Proof.
  intros Hin Hb.
  assert (In (Byte.to_N b) (decode_utf8_ignore data)) as Hkept.
  { unfold decode_utf8_ignore.
    apply (decode_N_keeps_ascii (List.length (map Byte.to_N data)));
      [lia | apply in_map; exact Hin | exact Hb]. }
  split; [exact Hkept | ].
  intros St process rest buffer st. simpl.
  destruct (decode_utf8_ignore data) as [ | c r]; [contradiction | ].
  simpl negb. cbv iota.
  destruct (process_buffer process (buffer ++ c :: r) st). reflexivity.
Qed.

Lemma ascii_byte_always_reaches_buffer_witness :
  In (Byte.to_N x1c) (decode_utf8_ignore [xff; xc3; x1c; xe2; x82])
  /\ forall (St : Type) (process : pystr -> St -> St)
            (rest : list recv_event) (buffer : pystr) (st : St),
      receive_loop process (RecvData [xff; xc3; x1c; xe2; x82] :: rest) buffer st
      = receive_loop process rest
          (fst (process_buffer process
                  (buffer ++ decode_utf8_ignore [xff; xc3; x1c; xe2; x82]) st))
          (snd (process_buffer process
                  (buffer ++ decode_utf8_ignore [xff; xc3; x1c; xe2; x82]) st)).
Proof.
  apply (ascii_byte_always_reaches_buffer [xff; xc3; x1c; xe2; x82] x1c).
  - simpl. tauto.
  - vm_compute. reflexivity.
Defined.

(* ------------------------------------------------------------------ *)
(** ** Construction and cleanup *)
(* ------------------------------------------------------------------ *)

Section Construction.

Variable env : environment.

(** X7: on a file system that refuses nothing, the construction of the
    server leaves a directory holding at most [max_files] entries
    untouched, and halves a larger one once; the directory is within
    the limit afterwards exactly when it held at most twice the limit. *)
Theorem init_halves_once_above_limit (max_files : Z) (w : world) :
  distinct_names w -> obliging env ->
  let n := count_message_files w in
  let w' := snd (init max_files env w) in
  count_message_files w'
  = (if (Z.of_nat n >? max_files)%Z then (n - n / 2)%nat else n)
  /\ ((Z.of_nat n <= max_files)%Z -> w' = w)
  /\ ((0 <= max_files)%Z ->
      ((Z.of_nat (count_message_files w') <= max_files)%Z
       <-> (Z.of_nat n <= 2 * max_files)%Z)).
Proof.
  intros Hnd Hok n w'.
  assert (count_message_files w'
          = (if (Z.of_nat n >? max_files)%Z then (n - n / 2)%nat else n)) as Hcount.
  { unfold w', init. fold n.
    destruct (Z.of_nat n >? max_files)%Z; cbn [snd].
    - unfold count_message_files in *. apply cleanup_old_files_halves.
      + exact Hnd.
      + intros f _. apply Hok.
    - reflexivity. }
  split; [exact Hcount | ]. split.
  - intros Hle. unfold w', init. fold n.
    destruct (Z.gtb_spec (Z.of_nat n) max_files); [lia | reflexivity].
  - intros Hmax. rewrite Hcount.
    pose proof (Nat.div_mod_eq n 2) as Hdm.
    pose proof (Nat.mod_upper_bound n 2) as Hmod.
    destruct (Z.gtb_spec (Z.of_nat n) max_files); split; intros; lia.
Qed.

End Construction.

Lemma init_halves_once_above_limit_witness :
  count_message_files (snd (init 3 Demo.env Demo.five_files)) = (5 - 5 / 2)%nat.
Proof.
  assert (distinct_names Demo.five_files) as Hnd.
  { unfold distinct_names. simpl.
    repeat (constructor; [simpl; intuition discriminate | ]). constructor. }
  assert (obliging Demo.env) as Hok by (intros name; split; reflexivity).
  destruct (init_halves_once_above_limit Demo.env 3 Demo.five_files Hnd Hok)
    as [H _].
  exact H.
Defined.

Section SortStability.

Lemma insert_by_mtime_filter (k : Z) (x : Z * file) (l : list (Z * file)) :
  filter (fun p => (fst p =? k)%Z) (insert_by_mtime x l)
  = filter (fun p => (fst p =? k)%Z) (x :: l).
Proof.
  induction l as [ | y r IH]; [reflexivity | ].
  simpl insert_by_mtime.
  destruct (Z.leb_spec (fst x) (fst y)) as [Hle | Hgt]; [reflexivity | ].
  simpl filter in *. rewrite IH.
  destruct (Z.eqb_spec (fst x) k) as [Hx | Hx];
    destruct (Z.eqb_spec (fst y) k) as [Hy | Hy]; try reflexivity.
  lia.
Qed.

(** X8: the sort of the cleanup is stable: entries with the same
    modification time stay in the order of the listing, so among them
    the one listed first is the first to be deleted. *)
Theorem sort_by_mtime_stable (k : Z) (l : list (Z * file)) :
  filter (fun p => (fst p =? k)%Z) (sort_by_mtime l)
  = filter (fun p => (fst p =? k)%Z) l.
Proof.
  induction l as [ | x r IH]; [reflexivity | ].
  simpl sort_by_mtime. rewrite insert_by_mtime_filter.
  simpl filter. rewrite IH. reflexivity.
Qed.

End SortStability.

Section CleanupEdges.

Variable env : environment.

Lemma filter_filter_and (A : Type) (p q : A -> bool) (l : list A) :
  filter p (filter q l) = filter (fun x => q x && p x) l.
Proof.
  induction l as [ | x r IH]; simpl; [reflexivity | ].
  destruct (q x); simpl; [destruct (p x) | ]; rewrite IH; reflexivity.
Qed.

Lemma unlink_all_filter (doomed dir : list file) :
  unlink_all doomed dir
  = filter (fun f => negb (existsb (fun v => pystr_eqb (f_name f) (f_name v)) doomed))
           dir.
Proof.
  revert dir. induction doomed as [ | v r IH]; intros dir.
  - simpl. symmetry. apply filter_all. reflexivity.
  - unfold unlink_all in *. simpl fold_left. rewrite IH. unfold unlink.
    rewrite filter_filter_and. apply filter_ext. intros f. simpl existsb.
    rewrite negb_orb. reflexivity.
Qed.

(** X9: the cleanup only removes entries: what it leaves is the listing
    it found, in the same order, without the victims whose deletion
    succeeded; an entry whose [stat()] fails is never deleted; and with
    fewer than two listed entries the cleanup changes nothing at all. *)
Theorem cleanup_old_files_only_removes (w : world) :
  distinct_names w ->
  w_dir (cleanup_old_files env w)
  = filter (fun f => negb (existsb (fun v => pystr_eqb (f_name f) (f_name v))
                                   (filter (deletable env) (victims env (w_dir w)))))
           (w_dir w)
  /\ (forall f, In f (w_dir w) -> stat_ok env (f_name f) = false ->
                In f (w_dir (cleanup_old_files env w)))
  /\ ((List.length (listed env (w_dir w)) < 2)%nat -> cleanup_old_files env w = w).
Proof.
  intros Hnd. split; [ | split].
  - rewrite cleanup_old_files_dir. apply unlink_all_filter.
  - intros f Hin Hstat. apply (cleanup_old_files_keeps env w f Hnd).
    split; [exact Hin | ]. intros [Hv _].
    pose proof (Permutation_in f (Permutation_sym (victims_spared env (w_dir w))))
      as Hperm.
    assert (In f (listed env (w_dir w))) as Hl.
    { apply Hperm. apply in_or_app. left. exact Hv. }
    unfold listed in Hl. apply filter_In in Hl. destruct Hl as [_ Hl]. congruence.
  - intros Hfew. unfold cleanup_old_files.
    assert (List.length (sort_by_mtime (stat_files env (w_dir w)))
            = List.length (listed env (w_dir w))) as Hlen.
    { rewrite <- (Permutation_length (sorted_files_snd env (w_dir w))).
      rewrite length_map. reflexivity. }
    rewrite Hlen.
    assert (List.length (listed env (w_dir w)) / 2 = 0)%nat as Hz.
    { apply Nat.div_small. exact Hfew. }
    rewrite Hz. reflexivity.
Qed.

End CleanupEdges.

Lemma cleanup_old_files_only_removes_witness :
  In {| f_name := lit "b.hl7"; f_mtime := 10; f_body := [] |}
     (w_dir (cleanup_old_files Scenarios.env_stale Demo.five_files)).
Proof.
  assert (distinct_names Demo.five_files) as Hnd.
  { unfold distinct_names. simpl.
    repeat (constructor; [simpl; intuition discriminate | ]). constructor. }
  destruct (cleanup_old_files_only_removes Scenarios.env_stale Demo.five_files Hnd)
    as (_ & H & _).
  apply H.
  - simpl. tauto.
  - reflexivity.
Defined.

Example cleanup_passes_over_stale_entry :
  map f_name (w_dir (cleanup_old_files Scenarios.env_stale Demo.five_files))
  = [lit "a.hl7"; lit "b.hl7"; lit "c.hl7"].
Proof. vm_compute. reflexivity. Qed.

(* ------------------------------------------------------------------ *)
(** ** The directory through saves and connections *)
(* ------------------------------------------------------------------ *)

Section DirectoryInvariant.

Lemma put_file_names (new : file) (dir : list file) (x : pystr) :
  In x (map f_name (put_file new dir)) ->
  x = f_name new \/ In x (map f_name dir).
Proof.
  induction dir as [ | f r IH]; simpl.
  - intros [H | H]; [left; congruence | contradiction].
  - destruct (pystr_eqb (f_name f) (f_name new)); simpl.
    + intros [H | H]; [left; congruence | right; right; exact H].
    + intros [H | H]; [right; left; exact H | ].
      destruct (IH H) as [H' | H']; [left; exact H' | right; right; exact H'].
Qed.

Lemma put_file_NoDup (new : file) (dir : list file) :
  NoDup (map f_name dir) -> NoDup (map f_name (put_file new dir)).
Proof.
  induction dir as [ | f r IH]; simpl; intros Hnd.
  - constructor; [intros [] | constructor].
  - inversion Hnd as [ | ? ? Hf Hr]; subst.
    destruct (pystr_eqb (f_name f) (f_name new)) eqn:E; simpl.
    + apply pystr_eqb_eq in E. constructor; [rewrite <- E; exact Hf | exact Hr].
    + apply pystr_eqb_neq in E. constructor; [ | apply IH; exact Hr].
      intros Hin. destruct (put_file_names new r _ Hin) as [H | H];
        [congruence | contradiction].
Qed.




Variable max_files : Z.
Variable env : environment.

Lemma cleanup_old_files_distinct (w : world) :
  distinct_names w -> distinct_names (cleanup_old_files env w).
Proof.
  unfold distinct_names. intros H. rewrite cleanup_old_files_dir.
  apply unlink_all_NoDup. exact H.
Qed.

Lemma before_write_distinct (w : world) :
  distinct_names w -> distinct_names (before_write max_files env w).
Proof.
  intros H. unfold before_write, now, distinct_names. cbn [snd w_dir].
  destruct (Z.of_nat (count_message_files w) >=? max_files)%Z; [ | exact H].
  apply (cleanup_old_files_distinct
           (logger (LogLimitReached (count_message_files w) max_files) w)).
  exact H.
Qed.

Lemma store_distinct (name body : pystr) (mtime : Z) (w : world) :
  distinct_names w -> distinct_names (store name body mtime w).
Proof.
  intros H. unfold store. destruct (contains SLASH name); [exact H | ].
  unfold distinct_names. cbn [w_dir set_dir]. apply put_file_NoDup. exact H.
Qed.

Lemma save_message_distinct (message_text control_id msg_type : pystr)
      (client_address : pystr * N) (w : world) :
  distinct_names w ->
  distinct_names (snd (save_message max_files env message_text control_id
                                    msg_type client_address w)).
Proof.
  intros H. rewrite save_message_unfold. cbv zeta.
  pose proof (before_write_distinct w H) as Hb.
  destruct (write_result env _); cbn [snd];
    change (distinct_names (logger ?e ?x)) with (distinct_names x);
    try apply store_distinct; exact Hb.
Qed.

(** The directory after [process_message] is the directory after its
    call of [save_message], if the parsing got that far. *)
Lemma process_message_dir (client_address : pystr * N) (message_text : pystr)
      (w : world) :
  w_dir (process_message max_files env client_address message_text w)
  = match hl7_parse_msh env (replace LF CR message_text) with
    | Raise _ => w_dir w
    | Ok msh =>
      w_dir (snd (save_message max_files env message_text
                               (field_or_unknown msh 10) (field_or_unknown msh 9)
                               client_address
                               (logger (LogReceived (field_or_unknown msh 9)
                                                    (field_or_unknown msh 10)
                                                    (field_or_unknown msh 3)) w)))
    end.
Proof.
  assert (forall e x, w_dir (process_except env e x) = w_dir x) as Hexc.
  { intros e x. unfold process_except, now, send, logger.
    cbn [w_sends w_dir w_log w_ticks w_wire].
    destruct (w_sends x) as [ | [e' | ] later]; reflexivity. }
  assert (forall t x, w_dir (snd (send t x)) = w_dir x) as Hsend.
  { intros t x. unfold send. destruct (w_sends x) as [ | [e' | ] later]; reflexivity. }
  unfold process_message. rewrite process_try_unfold.
  destruct (hl7_parse_msh env (replace LF CR message_text)) as [msh | e].
  - cbv zeta. set (w2 := snd (save_message _ _ _ _ _ _ _)).
    destruct (create_ack msh (clock env (w_ticks w2))) as [ack | e].
    + pose proof (Hsend ack (snd (now env w2))) as Hs.
      destruct (send ack (snd (now env w2))) as [[u | e] w4]; cbn [snd] in Hs.
      * exact Hs.
      * rewrite Hexc. exact Hs.
    + rewrite Hexc. reflexivity.
  - apply Hexc.
Qed.

Lemma process_message_distinct (client_address : pystr * N) (message_text : pystr)
      (w : world) :
  distinct_names w ->
  distinct_names (process_message max_files env client_address message_text w).
Proof.
  intros H. unfold distinct_names. rewrite process_message_dir.
  destruct (hl7_parse_msh env (replace LF CR message_text)) as [msh | e];
    [ | exact H].
  apply save_message_distinct. exact H.
Qed.

(** X10: the names of the message directory stay distinct through a
    whole connection, whatever is received and whatever the file system
    answers: a save under a name in use replaces the entry. *)
Theorem handle_client_keeps_names_distinct
        (client_address : pystr * N) (events : list recv_event) (w : world) :
  distinct_names w ->
  distinct_names (snd (handle_client max_files env client_address events w)).
Proof.
  intros H. rewrite handle_client_runs. cbn [snd].
  assert (distinct_names (run (process_message max_files env client_address)
                              (frames_of events) w)) as Hrun.
  { unfold run. generalize (frames_of events) as msgs. intros msgs.
    revert w H. induction msgs as [ | m rest IH]; intros w H; simpl.
    - exact H.
    - apply IH. apply process_message_distinct. exact H. }
  destruct (exit_of events); exact Hrun.
Qed.

End DirectoryInvariant.

Lemma handle_client_keeps_names_distinct_witness :
  distinct_names
    (snd (handle_client 2 Demo.env Demo.client
            [RecvData (ascii_bytes (Demo.msg1 ++ [FS] ++ Demo.msg2 ++ [FS]))]
            Demo.five_files)).
Proof.
  apply (handle_client_keeps_names_distinct 2 Demo.env Demo.client).
  unfold distinct_names. simpl.
  repeat (constructor; [simpl; intuition discriminate | ]). constructor.
Defined.

Section SavedRecord.

Variable max_files : Z.
Variable env : environment.


End SavedRecord.


Example same_second_same_id_overwrites :
  let w1 := snd (save_message 1000 Scenarios.env_same_second Demo.msg1
                              (lit "CTRL1") (lit "ORU^W01") Demo.client
                              Demo.empty_world) in
  let w2 := snd (save_message 1000 Scenarios.env_same_second Demo.msg2
                              (lit "CTRL1") (lit "ORU^W01") Demo.client w1) in
  count_message_files w1 = 1%nat /\ count_message_files w2 = 1%nat.
Proof. vm_compute. split; reflexivity. Qed.

(* ------------------------------------------------------------------ *)
(** ** Headers with missing fields *)
(* ------------------------------------------------------------------ *)

Section ShortHeaders.

Lemma create_ack_short (msh : list pystr) (now : datetime) :
  (List.length msh <= 4)%nat ->
  create_ack msh now = Raise (lit "list index out of range").
Proof.
  intros Hlen. unfold create_ack, getitem.
  destruct (nth_error msh 3) as [f3 | ] eqn:E3; [ | reflexivity].
  assert (nth_error msh 4 = None) as E4 by (apply nth_error_None; lia).
  rewrite E4. reflexivity.
Qed.

Variable max_files : Z.
Variable env : environment.

(** X12: a message whose header segment has at most four fields is
    stored like any other, under the control id and type [UNKNOWN], and
    is then refused: building the acknowledgment reads fields 3 and 4
    without a length check, the failure is caught, and the client gets a
    negative acknowledgment. *)
Theorem short_header_is_stored_then_refused
        (client_address : pystr * N) (message_text : pystr) (w : world)
        (msh : list pystr) :
  hl7_parse_msh env (replace LF CR message_text) = Ok msh ->
  (List.length msh <= 4)%nat ->
  let w' := process_message max_files env client_address message_text w in
  w_dir w'
  = w_dir (snd (save_message max_files env message_text UNKNOWN UNKNOWN
                             client_address
                             (logger (LogReceived UNKNOWN UNKNOWN
                                                  (field_or_unknown msh 3)) w)))
  /\ In (LogProcessError (lit "list index out of range")) (w_log w')
  /\ w_wire w'
     = w_wire w
       ++ match w_sends w with
          | Some _ :: _ => []
          | _ => [create_nak UNKNOWN (lit "list index out of range")
                             (clock env (S (S (w_ticks w))))]
          end.
Proof.
  intros Hparse Hlen w'.
  assert (field_or_unknown msh 10 = UNKNOWN /\ field_or_unknown msh 9 = UNKNOWN)
    as [H10 H9].
  { unfold field_or_unknown.
    destruct (Nat.ltb_spec 10 (List.length msh)); [lia | ].
    destruct (Nat.ltb_spec 9 (List.length msh)); [lia | ]. split; reflexivity. }
  split; [ | split].
  - unfold w'. rewrite process_message_dir, Hparse, H10, H9. reflexivity.
  - unfold w', process_message. rewrite process_try_unfold, Hparse. cbv zeta.
    rewrite create_ack_short by exact Hlen.
    apply process_except_effect.
  - pose proof (process_message_exchange max_files env client_address
                                         message_text w) as Hx.
    unfold exchange, client_view in Hx. rewrite Hparse in Hx.
    rewrite create_ack_short in Hx by exact Hlen.
    unfold exchange_nak, attempt_send in Hx. fold w' in Hx.
    destruct (w_sends w) as [ | [e | ] later]; cbn [snd] in Hx;
      inversion Hx; try reflexivity.
    symmetry. apply app_nil_r.
Qed.

End ShortHeaders.

Lemma short_header_is_stored_then_refused_witness :
  let w' := process_message 1000 Demo.env Demo.client Scenarios.short_msg
                            Demo.empty_world in
  w_dir w'
  = w_dir (snd (save_message 1000 Demo.env Scenarios.short_msg UNKNOWN UNKNOWN
                             Demo.client
                             (logger (LogReceived UNKNOWN UNKNOWN
                                        (field_or_unknown
                                           [lit "MSH"; lit "|"; lit "^~\&"; lit "DEV"]
                                           3))
                                     Demo.empty_world)))
  /\ In (LogProcessError (lit "list index out of range")) (w_log w')
  /\ w_wire w'
     = w_wire Demo.empty_world
       ++ match w_sends Demo.empty_world with
          | Some _ :: _ => []
          | _ => [create_nak UNKNOWN (lit "list index out of range")
                             (clock Demo.env (S (S (w_ticks Demo.empty_world))))]
          end.
Proof.
  apply (short_header_is_stored_then_refused
           1000 Demo.env Demo.client Scenarios.short_msg Demo.empty_world
           [lit "MSH"; lit "|"; lit "^~\&"; lit "DEV"]).
  - vm_compute. reflexivity.
  - simpl. lia.
Defined.

Example short_header_exchange :
  let w' := process_message 1000 Demo.env Demo.client Scenarios.short_msg
                            Demo.empty_world in
  map f_name (w_dir w') = [lit "20240101_120000_UNKNOWN_UNKNOWN.hl7"]
  /\ w_wire w'
     = [lit "MSH|^~\&|HL7_SERVER||||20240101120002||ACK|UNKNOWN_NAK|P|2.3.1"
          ++ [CR] ++ lit "MSA|AE|UNKNOWN|list index out of range" ++ [CR] ++ [FS]].
Proof. vm_compute. split; reflexivity. Qed.

(** X13: a header segment of five to ten fields carries no control id;
    it is acknowledged positively, and the acknowledgment names the
    control id [UNKNOWN] in both segments. *)
Theorem header_without_control_id_is_acknowledged_as_unknown
        (msh : list pystr) (now : datetime) :
  (4 < List.length msh <= 10)%nat ->
  create_ack msh now
  = Ok (lit "MSH|^~\&|HL7_SERVER||" ++ nth 3 msh [] ++ lit "|" ++ nth 4 msh []
          ++ lit "|" ++ strftime_compact now ++ lit "||ACK|UNKNOWN_ACK|P|2.3.1"
          ++ [CR] ++ lit "MSA|AA|UNKNOWN|Message accepted" ++ [CR] ++ [FS]).
Proof.
  intros [Hlo Hhi]. unfold create_ack, getitem, field_or_unknown.
  destruct (Nat.ltb_spec 10 (List.length msh)); [lia | ].
  rewrite (nth_error_nth' msh [] (n := 3)) by lia.
  rewrite (nth_error_nth' msh [] (n := 4)) by lia.
  unfold bind, ack_header, ack_msa. f_equal.
  repeat rewrite <- app_assoc. reflexivity.
Qed.

Lemma header_without_control_id_is_acknowledged_as_unknown_witness :
  create_ack [lit "MSH"; lit "|"; lit "^~\&"; lit "DEV"; []; lit "HOSP"; [];
              lit "20240101120000"; []; lit "ORU^W01"] (Demo.second_clock 1)
  = Ok (lit "MSH|^~\&|HL7_SERVER||"
          ++ nth 3 [lit "MSH"; lit "|"; lit "^~\&"; lit "DEV"; []; lit "HOSP"; [];
                    lit "20240101120000"; []; lit "ORU^W01"] []
          ++ lit "|"
          ++ nth 4 [lit "MSH"; lit "|"; lit "^~\&"; lit "DEV"; []; lit "HOSP"; [];
                    lit "20240101120000"; []; lit "ORU^W01"] []
          ++ lit "|" ++ strftime_compact (Demo.second_clock 1)
          ++ lit "||ACK|UNKNOWN_ACK|P|2.3.1"
          ++ [CR] ++ lit "MSA|AA|UNKNOWN|Message accepted" ++ [CR] ++ [FS]).
Proof.
  apply (header_without_control_id_is_acknowledged_as_unknown
           [lit "MSH"; lit "|"; lit "^~\&"; lit "DEV"; []; lit "HOSP"; [];
            lit "20240101120000"; []; lit "ORU^W01"] (Demo.second_clock 1)).
  simpl. lia.
Defined.

(* ------------------------------------------------------------------ *)
(** ** Replies *)
(* ------------------------------------------------------------------ *)

Section Replies.


Variable max_files : Z.
Variable env : environment.



End Replies.


Section ReplyFrames.






End ReplyFrames.


(* ------------------------------------------------------------------ *)
(** ** The capacity through a connection *)
(* ------------------------------------------------------------------ *)

Section CapacityInvariant.

Variable max_files : Z.
Variable env : environment.

Hypothesis Hcapacity : (2 <= max_files)%Z.
Hypothesis Hobliging : obliging env.

Lemma save_message_stays_within (message_text control_id msg_type : pystr)
      (client_address : pystr * N) (w : world) :
  distinct_names w ->
  (Z.of_nat (count_message_files w) <= max_files)%Z ->
  (Z.of_nat (count_message_files
               (snd (save_message max_files env message_text control_id msg_type
                                  client_address w))) <= max_files)%Z.
Proof.
  intros Hnd Hn.
  assert (forall f, In f (w_dir w) ->
                    stat_ok env (f_name f) = true
                    /\ unlink_error env (f_name f) = None) as Hok
      by (intros f _; apply Hobliging).
  pose proof (before_write_count max_files env w Hnd Hok) as Hbw.
  assert (Z.of_nat (count_message_files (before_write max_files env w)) + 1
          <= max_files)%Z as Hroom.
  { rewrite Hbw.
    pose proof (Nat.div_mod_eq (count_message_files w) 2).
    pose proof (Nat.mod_upper_bound (count_message_files w) 2).
    destruct (Z.geb_spec (Z.of_nat (count_message_files w)) max_files); lia. }
  rewrite save_message_unfold. cbv zeta.
  destruct (write_result env _) as [ | e | written e]; cbn [snd];
    unfold count_message_files in *; cbn [w_dir logger].
  - match goal with
    | |- context [store ?n ?b ?m ?x] => pose proof (store_length_le n b m x)
    end. lia.
  - lia.
  - match goal with
    | |- context [store ?n ?b ?m ?x] => pose proof (store_length_le n b m x)
    end. lia.
Qed.

Lemma process_message_stays_within (client_address : pystr * N)
      (message_text : pystr) (w : world) :
  distinct_names w ->
  (Z.of_nat (count_message_files w) <= max_files)%Z ->
  (Z.of_nat (count_message_files
               (process_message max_files env client_address message_text w))
   <= max_files)%Z.
Proof.
  intros Hnd Hn. unfold count_message_files at 1.
  rewrite process_message_dir.
  destruct (hl7_parse_msh env (replace LF CR message_text)) as [msh | e];
    [ | exact Hn].
  apply (save_message_stays_within
           message_text (field_or_unknown msh 10) (field_or_unknown msh 9)
           client_address
           (logger (LogReceived (field_or_unknown msh 9) (field_or_unknown msh 10)
                                (field_or_unknown msh 3)) w)).
  - exact Hnd.
  - exact Hn.
Qed.

(** X16: with a capacity of at least two and a file system that refuses
    no [stat()] and no [unlink()], a connection that starts on a store
    within capacity leaves it within capacity, whatever is received over
    it and whether or not the writes succeed. *)
Theorem handle_client_stays_within_capacity
        (client_address : pystr * N) (events : list recv_event) (w : world) :
  distinct_names w ->
  (Z.of_nat (count_message_files w) <= max_files)%Z ->
  (Z.of_nat (count_message_files
               (snd (handle_client max_files env client_address events w)))
   <= max_files)%Z.
Proof.
  intros Hnd Hn. rewrite handle_client_runs. cbn [snd].
  assert (Z.of_nat (count_message_files
                      (run (process_message max_files env client_address)
                           (frames_of events) w)) <= max_files)%Z as Hrun.
  { unfold run. generalize (frames_of events) as msgs. intros msgs.
    revert w Hnd Hn. induction msgs as [ | m rest IH]; intros w Hnd Hn; simpl.
    - exact Hn.
    - apply IH.
      + apply process_message_distinct. exact Hnd.
      + apply process_message_stays_within; assumption. }
  destruct (exit_of events); exact Hrun.
Qed.

End CapacityInvariant.

Lemma handle_client_stays_within_capacity_witness :
  (Z.of_nat (count_message_files
               (snd (handle_client 5 Demo.env Demo.client
                       [RecvData (ascii_bytes (Demo.msg1 ++ [FS] ++ Demo.msg2 ++ [FS]))]
                       Demo.five_files)))
   <= 5)%Z.
Proof.
  apply (handle_client_stays_within_capacity 5 Demo.env).
  - lia.
  - intros name. split; reflexivity.
  - unfold distinct_names. simpl.
    repeat (constructor; [simpl; intuition discriminate | ]). constructor.
  - simpl. lia.
Defined.

Example connection_on_full_store :
  map f_name
      (w_dir (snd (handle_client 5 Demo.env Demo.client
                     [RecvData (ascii_bytes (Demo.msg1 ++ [FS] ++ Demo.msg2 ++ [FS]))]
                     Demo.five_files)))
  = [lit "a.hl7"; lit "c.hl7"; lit "e.hl7";
     lit "20240101_120000_CTRL1_ORU_W01.hl7";
     lit "20240101_120002_CTRL2_ORU_W01.hl7"].
Proof. vm_compute. reflexivity. Qed.
